(** * ecl3: a shallow embedding of the array reader and the summary layer

    The development follows the layout of the library:

    - [Keyword]  : lib/src/keyword.cpp and lib/include/ecl3/keyword.h
    - [Summary]  : lib/src/summary.cpp
    - [Io]       : lib/include/ecl3/io.hpp ([ecl3::stream_reader])
    - [Core]     : python/ecl3/core.cpp ([columns], [readall])

    Bytes ([char], [unsigned char]) are [ascii]; the C [int] is a [Z] with
    its 32-bit wrap-around written out where the code relies on it. *)

From Stdlib Require Import ZArith List Bool Ascii String DecimalString Lia.
Import ListNotations.

Local Open Scope Z_scope.

(** ** Bytes and machine integers *)

Definition byte := ascii.

Definition Z_of_byte (b : byte) : Z := Z.of_N (N_of_ascii b).

Definition bytes_of_string (s : string) : list byte := list_ascii_of_string s.

(** [(int32_t) z]: reduction into the signed 32-bit range. *)
Definition to_int32 (z : Z) : Z := (z + 2 ^ 31) mod 2 ^ 32 - 2 ^ 31.

(** The unsigned integer denoted by a run of bytes, most significant first. *)
Definition be_uint (bs : list byte) : Z :=
  fold_left (fun acc b => Z.lor (Z.shiftl acc 8) (Z_of_byte b)) bs 0.

(** The host is little-endian (the x86 and x64 targets of the repository's
    builds): an object's value is read from its bytes last byte first. *)
Definition host_uint (bs : list byte) : Z := be_uint (rev bs).

(** The object representation of a 32-bit integer on the host. *)
Definition host_bytes32 (z : Z) : list byte :=
  let u := z mod 2 ^ 32 in
  map (fun i => ascii_of_N (Z.to_N (Z.land (Z.shiftr u (8 * i)) 255)))
      [0; 1; 2; 3].

Definition bytes_eqb (a b : list byte) : bool :=
  if list_eq_dec ascii_dec a b then true else false.

(** [src + off], [len] bytes: [None] when the range leaves the buffer. *)
Definition slice (off len : nat) (src : list byte) : option (list byte) :=
  if (off + len <=? List.length src)%nat
  then Some (firstn len (skipn off src))
  else None.

(** ** lib/src/keyword.cpp *)

Module Keyword.

(** Modelled from the spec: the error codes of ecl3/common.h, which is not
    among the sources.  [ECL3_OK] is the code that tests false in
    [if (err)]. *)
Inductive ecl3_errno : Set :=
| ECL3_OK
| ECL3_INVALID_ARGS
| ECL3_UNSUPPORTED.

Definition failed (e : ecl3_errno) : bool :=
  match e with ECL3_OK => false | _ => true end.

(** [ECL3_MAKE_KWENUM(word)] *)
Definition ECL3_MAKE_KWENUM (word : string) : Z :=
  match bytes_of_string word with
  | [w0; w1; w2; w3] =>
      Z.lor (Z.lor (Z.lor (Z.shiftl (Z_of_byte w0) 24)
                          (Z.shiftl (Z_of_byte w1) 16))
                   (Z.shiftl (Z_of_byte w2) 8))
            (Z_of_byte w3)
  | _ => 0
  end.

Definition ECL3_INTE := Eval cbv in ECL3_MAKE_KWENUM "INTE".
Definition ECL3_REAL := Eval cbv in ECL3_MAKE_KWENUM "REAL".
Definition ECL3_DOUB := Eval cbv in ECL3_MAKE_KWENUM "DOUB".
Definition ECL3_CHAR := Eval cbv in ECL3_MAKE_KWENUM "CHAR".
Definition ECL3_MESS := Eval cbv in ECL3_MAKE_KWENUM "MESS".
Definition ECL3_LOGI := Eval cbv in ECL3_MAKE_KWENUM "LOGI".
Definition ECL3_X231 := Eval cbv in ECL3_MAKE_KWENUM "X231".

(** [ECL3_C001 .. ECL3_C099]: the enumerator of ["C0NN"] for [nn] = NN. *)
Definition digit (d : Z) : byte := ascii_of_N (Z.to_N (48 + d)).

Definition ECL3_C0 (nn : Z) : Z :=
  ECL3_MAKE_KWENUM
    (String "C" (String "0"
      (String (digit (nn / 10)) (String (digit (nn mod 10)) EmptyString)))).

Definition ECL3_C0NN : list Z :=
  Eval cbv in map (fun n => ECL3_C0 (Z.of_nat n)) (seq 1 99).

Definition Zmem (x : Z) (l : list Z) : bool := existsb (Z.eqb x) l.

(** The enumerators of [enum ecl3_typeids], in declaration order. *)
Definition ecl3_typeids : list Z :=
  [ECL3_INTE; ECL3_REAL; ECL3_DOUB; ECL3_CHAR; ECL3_MESS; ECL3_LOGI;
   ECL3_X231] ++ ECL3_C0NN.

(** [ecl3_typeid(str, &type)], implemented in keyword.cpp under the name
    [ecl3_keyword_type]: load the four bytes, [be32toh], and accept the
    word when it is one of the enumerators. *)
Definition ecl3_keyword_type (str : list byte) : ecl3_errno * Z :=
  let kw := to_int32 (be_uint (firstn 4 str)) in
  if Zmem kw ecl3_typeids then (ECL3_OK, kw) else (ECL3_INVALID_ARGS, 0).

Definition ecl3_typeid := ecl3_keyword_type.

(** Modelled from the spec: [ecl3_type_size], declared in keyword.h and
    absent from the sources.  4 for INTE, REAL and LOGI, 8 for DOUB and
    CHAR, 0 for MESS, N for C0NN (the digits the tag carries in its two low
    bytes), unsupported for X231, invalid otherwise. *)
Definition ecl3_type_size (type : Z) : ecl3_errno * Z :=
  if Zmem type [ECL3_INTE; ECL3_REAL; ECL3_LOGI] then (ECL3_OK, 4)
  else if Zmem type [ECL3_DOUB; ECL3_CHAR] then (ECL3_OK, 8)
  else if type =? ECL3_MESS then (ECL3_OK, 0)
  else if type =? ECL3_X231 then (ECL3_UNSUPPORTED, 0)
  else if Zmem type ECL3_C0NN
       then (ECL3_OK, (Z.land (Z.shiftr type 8) 255 - 48) * 10
                      + (Z.land type 255 - 48))
  else (ECL3_INVALID_ARGS, 0).

Definition ECL3_BLOCK_SIZE_NUMERIC := 1000.
Definition ECL3_BLOCK_SIZE_STRING := 105.

(** Modelled from the spec: [ecl3_block_size], declared in keyword.h and
    absent from the sources.  105 for the string-like tags (CHAR, C0NN),
    1000 for all others. *)
Definition ecl3_block_size (type : Z) : ecl3_errno * Z :=
  if Zmem type (ECL3_CHAR :: ECL3_C0NN) then (ECL3_OK, ECL3_BLOCK_SIZE_STRING)
  else if Zmem type ecl3_typeids then (ECL3_OK, ECL3_BLOCK_SIZE_NUMERIC)
  else (ECL3_INVALID_ARGS, 0).

(** Cut [n] elements of [size] bytes off the front of [src]. *)
Fixpoint elements (size n : nat) (src : list byte) : list (list byte) :=
  match n with
  | O => []
  | S n' => firstn size src :: elements size n' (skipn size src)
  end.

(** Modelled from the spec: [ecl3_get_native], declared in keyword.h and
    absent from the sources.  Copies [elems] elements from [src]: the
    numeric types are swapped from big-endian to the host's order element by
    element, and so is the 32-bit word LOGI is loaded from; CHAR and C0NN are
    copied byte for byte, MESS copies nothing; X231 is unsupported and an unknown [fmt]
    is invalid.  The second component is what is written through [dst];
    [None] stands for an access outside [src]. *)
Definition ecl3_get_native (src : list byte) (fmt : Z) (elems : nat)
  : option (ecl3_errno * list byte) :=
  match ecl3_type_size fmt with
  | (ECL3_OK, size) =>
      let size := Z.to_nat size in
      if (elems * size <=? List.length src)%nat then
        if Zmem fmt (ECL3_CHAR :: ECL3_MESS :: ECL3_C0NN)
        then Some (ECL3_OK, firstn (elems * size) src)
        else Some (ECL3_OK, List.concat (map (@rev byte) (elements size elems src)))
      else None
  | (err, _) => Some (err, [])
  end.

(** [ecl3_array_header(source, kw, type, count)]: the outputs are the error
    code, the keyword, the type tag and the count. *)
Definition ecl3_array_header (source : list byte)
  : option (ecl3_errno * list byte * list byte * Z) :=
  match slice 0 8 source, slice 8 4 source, slice 12 4 source with
  | Some kw, Some word, Some type =>
      match ecl3_get_native word ECL3_INTE 1 with
      | Some (_, tmp) => Some (ECL3_OK, kw, type, to_int32 (host_uint tmp))
      | None => None
      end
  | _, _, _ => None
  end.

(** Modelled from the spec: [ecl3_array_body], declared in keyword.h and
    absent from the sources.  Decodes [min(elems, chunk_size)] elements and
    reports that number through [count]. *)
Definition ecl3_array_body (src : list byte) (type elems chunk_size : Z)
  : option (ecl3_errno * list byte * Z) :=
  let n := Z.min elems chunk_size in
  match ecl3_get_native src type (Z.to_nat n) with
  | Some (ECL3_OK, out) => Some (ECL3_OK, out, n)
  | Some (err, out) => Some (err, out, 0)
  | None => None
  end.

End Keyword.

(** ** lib/src/summary.cpp *)

Module Summary.

(** [s[i]] on a C string: the terminating NUL past the end. *)
Definition char_at (s : string) (i : nat) : ascii :=
  match String.get i s with
  | Some c => c
  | None => Ascii.zero
  end.

(** [std::string(p, n)] *)
Definition std_string (p : string) (n : nat) : string := substring 0 n p.

Definition ecl3_params_partial_identifiers : list string :=
  ["WGNAMES "; "NUMS    "; "LGRS    "; "NUMLX   "; "NUMLY   "; "NUMLZ   "]%string.

Definition WGNAMES : string := "WGNAMES ".
Definition NUMS    : string := "NUMS    ".
Definition LGRS    : string := "LGRS    ".
Definition NUMLX   : string := "NUMLX   ".
Definition NUMLY   : string := "NUMLY   ".
Definition NUMLZ   : string := "NUMLZ   ".

Local Notation "a '==' b" := (String.eqb a b) (at level 70, no associativity).
Local Notation "a '=c=' b" := (Ascii.eqb a b) (at level 70, no associativity).

Definition ecl3_params_identifies (type keyword : string) : Z :=
  let id := std_string type 8 in
  let k0 := char_at keyword 0 in
  let k1 := char_at keyword 1 in
  (* switch (keyword[0]) *)
  if k0 =c= "A" then (if id == NUMS then 1 else 0)
  else if k0 =c= "B" then (if id == NUMS then 1 else 0)
  else if k0 =c= "C" then (if (id == WGNAMES) || (id == NUMS) then 2 else 0)
  else if k0 =c= "G" then
    if k1 =c= "M" then 0
    else if id == WGNAMES then 1 else 0
  else if k0 =c= "W" then
    if k1 =c= "M" then 0
    else if std_string keyword 8 == "WNEWTON " then 0
    else if id == WGNAMES then 1 else 0
  else if k0 =c= "P" then (if id == WGNAMES then 1 else 0)
  else if k0 =c= "R" then (if id == NUMS then 1 else 0)
  else if negb ((k0 =c= "L") || (k0 =c= "N") || (k0 =c= "S")) then 0
  else
  (* after the switch *)
  if k0 =c= "L" then
    if k1 =c= "B" then
      (if (id == LGRS) || (id == NUMLX) || (id == NUMLY) || (id == NUMLZ)
       then 4 else 0)
    else if k1 =c= "C" then
      (if (id == LGRS) || (id == WGNAMES) || (id == NUMLX) || (id == NUMLY)
          || (id == NUMLZ)
       then 4 else 0)
    else if k1 =c= "W" then
      (if (id == LGRS) || (id == WGNAMES) then 2 else 0)
    else 0
  else
  let key := std_string keyword 8 in
  if char_at key 0 =c= "N" then
    if key == "NEWTON  " then 0
    else if key == "NAIMFRAC" then 0
    else if key == "NLINEARS" then 0
    else if key == "NLINSMIN" then 0
    else if key == "NLINSMAX" then 0
    else if id == WGNAMES then 1 else 0
  else if char_at key 0 =c= "S" then
    if key == "STEPTYPE" then 0
    else
      let prefix := substring 0 4 key in
      if prefix == "SGAS" then 0
      else if prefix == "SOIL" then 0
      else if prefix == "SWAT" then 0
      else if (id == WGNAMES) || (id == NUMS) then 2 else 0
  else 0.

(** The specifiers that qualify [keyword]. *)
Definition qualifiers (keyword : string) : list string :=
  filter (fun S => 0 <? ecl3_params_identifies S keyword)
         ecl3_params_partial_identifiers.

End Summary.

(** ** Outcomes of the C++ code *)

(** How a call ends when it does not return: the exceptions the code throws,
    and two markers of the model ([undefined_behaviour] for an access outside
    a buffer, [out_of_fuel] for a loop cut short by its bound). *)
Inductive failure : Type :=
| ios_failure                      (* Stream::failure: a read met the end *)
| head_tail_error (h t : Z)        (* "head/tail mismatch: head (h) != tail (t)" *)
| header_error (what : string)
| invalid_argument (what : string)
| runtime_error (what : string)
| length_error                     (* vector::resize with a negative size *)
| error_already_set                (* pybind11: IndexError from a py::list *)
| undefined_behaviour
| out_of_fuel.

Inductive outcome (A : Type) : Type :=
| Ok (a : A)
| Fail (e : failure).

Arguments Ok {A} a.
Arguments Fail {A} e.

Definition bind {A B : Type} (c : outcome A) (k : A -> outcome B) : outcome B :=
  match c with
  | Ok a => k a
  | Fail e => Fail e
  end.

Declare Scope outcome_scope.
Delimit Scope outcome_scope with outcome.
Notation "x <- c ;; k" := (bind c (fun x => k))
  (at level 61, c at next level, right associativity) : outcome_scope.
Notation "c ;; k" := (bind c (fun _ => k))
  (at level 61, right associativity) : outcome_scope.

(** An access the C++ code makes without a bounds check. *)
Definition defined {A : Type} (o : option A) : outcome A :=
  match o with
  | Some a => Ok a
  | None => Fail undefined_behaviour
  end.

(** ** lib/include/ecl3/io.hpp *)

Module Io.
Import Keyword.
Local Open Scope outcome_scope.

Record raw_array : Type := mk_raw_array {
  keyword : list byte;       (* std::array< char, 8 > *)
  type : list byte;          (* std::array< char, 4 > *)
  count : Z;
  body : list byte
}.

Definition empty (a : raw_array) : bool := count a =? -1.

(** The reader: the part of the file not yet read (the base [Stream]), the
    array handed out by [next], and the pushback flag. *)
Record stream_reader : Type := mk_stream_reader {
  stream : list byte;
  last : raw_array;
  ungetted : bool
}.

(** [stream_reader(path)] on a file with the given contents.  [count]
    starts at 0; the two character arrays are not initialised by the
    constructor and are taken as NULs. *)
Definition open (file : list byte) : stream_reader :=
  {| stream := file;
     last := {| keyword := repeat Ascii.zero 8; type := repeat Ascii.zero 4;
                count := 0; body := [] |};
     ungetted := false |}.

(** [Stream::read(dst, n)] with the exception mask the constructor sets:
    [None] when fewer than [n] bytes are left, in which case the stream sets
    [eofbit | failbit] and throws [Stream::failure]. *)
Definition read (n : nat) (s : list byte) : option (list byte * list byte) :=
  if (n <=? List.length s)%nat then Some (firstn n s, skipn n s) else None.

(** [std::int32_t x; ecl3_get_native(&x, src, ECL3_INTE, 1);] *)
Definition get_int32 (src : list byte) : outcome Z :=
  r <- defined (ecl3_get_native src ECL3_INTE 1) ;;
  Ok (to_int32 (host_uint (snd r))).

Definition check_headtail (head tail : list byte) : outcome unit :=
  if bytes_eqb head tail then Ok tt
  else
    h <- get_int32 head ;;
    t <- get_int32 tail ;;
    Fail (head_tail_error h t).

Definition read_head (r : stream_reader) : outcome stream_reader :=
  match read 4 (stream r) with
  | None =>
      (* the failure is caught and this->eof() holds; the rethrow is for a
         failure of the device, which a file held as a list does not have *)
      Ok {| stream := [];
            last := {| keyword := keyword (last r); type := type (last r);
                       count := -1; body := body (last r) |};
            ungetted := ungetted r |}
  | Some (head, s) =>
      match read 16 s with
      | None => Fail ios_failure
      | Some (header, s) =>
          match read 4 s with
          | None => Fail ios_failure
          | Some (tail, s) =>
              check_headtail head tail ;;
              h <- defined (ecl3_array_header header) ;;
              let '(err, kw, ty, cnt) := h in
              if failed err then Fail (header_error "error parsing header")
              else Ok {| stream := s;
                         last := {| keyword := kw; type := ty; count := cnt;
                                    body := body (last r) |};
                         ungetted := ungetted r |}
          end
      end
  end.

(** The [while (remaining > 0)] loop of [read_body].  Every round reads at
    least the eight bytes of a head and a tail, so [fuel] above the length
    of the stream is never used up. *)
Fixpoint read_body_loop (fuel : nat) (type blocksize remaining : Z)
    (body s : list byte) : outcome (Z * list byte * list byte) :=
  if remaining >? 0 then
    match fuel with
    | O => Fail out_of_fuel
    | S fuel =>
        match read 4 s with
        | None => Fail ios_failure
        | Some (head, s) =>
            elems <- get_int32 head ;;
            if elems <? 0 then Fail length_error (* buffer.resize(elems) *)
            else
              match read (Z.to_nat elems) s with
              | None => Fail ios_failure
              | Some (buffer, s) =>
                  match read 4 s with
                  | None => Fail ios_failure
                  | Some (tail, s) =>
                      check_headtail head tail ;;
                      (* body.resize(prev_size + elems): zero-filled, then
                         overwritten from prev_size by ecl3_array_body *)
                      b <- defined (ecl3_array_body buffer type remaining blocksize) ;;
                      let '(err, out, count) := b in
                      if failed err
                      then Fail (runtime_error "error parsing array body")
                      else
                        let fresh :=
                          out ++ repeat Ascii.zero
                                   (Z.to_nat elems - List.length out) in
                        read_body_loop fuel type blocksize (remaining - count)
                                       (body ++ fresh) s
                  end
              end
        end
    end
  else Ok (remaining, body, s).

Definition unknown_type (tag : list byte) : string :=
  "unknown type" ++ "'" ++ string_of_list_ascii tag ++ "'".

Definition read_body (r : stream_reader) : outcome stream_reader :=
  let '(err, type) := ecl3_typeid (Io.type (last r)) in
  if failed err then Fail (invalid_argument (unknown_type (Io.type (last r))))
  else
    let blocksize := snd (ecl3_block_size type) in
    res <- read_body_loop (S (List.length (stream r))) type blocksize
                          (count (last r)) [] (stream r) ;;
    let '(remaining, body, s) := res in
    if negb (remaining =? 0)
    then Fail (runtime_error "array not terminated correctly")
    else Ok {| stream := s;
               last := {| keyword := keyword (last r); type := Io.type (last r);
                          count := count (last r); body := body |};
               ungetted := ungetted r |}.

(** [next] when nothing is pushed back: the header, then the body unless
    the header read left the end-of-file mark. *)
Definition advance (r : stream_reader) : outcome stream_reader :=
  r <- read_head r ;;
  if negb (empty (last r)) then read_body r else Ok r.

(** [next()]: the reference it returns is [last] of the reader it leaves. *)
Definition next (r : stream_reader) : outcome stream_reader :=
  if ungetted r
  then Ok {| stream := stream r; last := last r; ungetted := false |}
  else advance r.

Definition unget (r : stream_reader) : stream_reader :=
  {| stream := stream r; last := last r; ungetted := true |}.

(** [conforming size blocksize remaining s]: the stream [s] starts with the
    body records of an array that has [remaining] elements to go, as the
    producer writes them: every record holds exactly
    [min(remaining, blocksize)] elements of [size] bytes between two equal
    markers that give its length in bytes. *)
Inductive conforming (size blocksize : Z) : Z -> list byte -> Prop :=
| conforming_done (remaining : Z) (s : list byte) :
    remaining <= 0 -> conforming size blocksize remaining s
| conforming_record (remaining : Z) (marker payload s : list byte) :
    0 < remaining ->
    List.length marker = 4%nat ->
    to_int32 (be_uint marker) = Z.of_nat (List.length payload) ->
    Z.of_nat (List.length payload) = size * Z.min remaining blocksize ->
    conforming size blocksize (remaining - Z.min remaining blocksize) s ->
    conforming size blocksize remaining (marker ++ payload ++ marker ++ s).

(** The three fields of a 16-byte header: the keyword, the big-endian
    count and the type tag. *)
Definition header_keyword (header : list byte) : list byte := firstn 8 header.
Definition header_count (header : list byte) : Z :=
  to_int32 (be_uint (firstn 4 (skipn 8 header))).
Definition header_type (header : list byte) : list byte :=
  firstn 4 (skipn 12 header).

(** The readers [read_head] and [read_body] leave behind. *)
Definition sentinel (r : stream_reader) : stream_reader :=
  {| stream := [];
     last := {| keyword := keyword (last r); type := type (last r);
                count := -1; body := body (last r) |};
     ungetted := ungetted r |}.

Definition with_header (r : stream_reader) (header rest : list byte)
  : stream_reader :=
  {| stream := rest;
     last := {| keyword := header_keyword header; type := header_type header;
                count := header_count header; body := body (last r) |};
     ungetted := ungetted r |}.

Definition with_body (r : stream_reader) (body s : list byte) : stream_reader :=
  {| stream := s;
     last := {| keyword := keyword (last r); type := Io.type (last r);
                count := count (last r); body := body |};
     ungetted := ungetted r |}.

End Io.

(** ** python/ecl3/core.cpp *)

Module Core.
Import Summary Io.
Local Open Scope outcome_scope.

(** [is_void(const std::string&)] *)
Definition is_void_string (str : string) : bool :=
  String.eqb str ":+:+:+:+" || String.eqb str "        ".

(** [is_void(std::int32_t)] *)
Definition is_void_int32 (i : Z) : bool := i <? 0.

(** [id << i] for an integer. *)
Definition decimal (i : Z) : string := NilZero.string_of_int (Z.to_int i).

(** [l[i]] on a [py::list]. *)
Definition item {A : Type} (l : list A) (i : nat) : outcome A :=
  match nth_error l i with
  | Some x => Ok x
  | None => Fail error_already_set
  end.

(** One guarded step of the loop body of [columns]: when [applies], fetch
    the [i]th qualifier, leave the iteration ([None], the [continue]) when
    it is void, and append it to the name otherwise. *)
Definition qualify {A : Type} (applies : bool) (l : list A) (i : nat)
    (void : A -> bool) (show : A -> string) (sep : string)
    (id : option string) : outcome (option string) :=
  match id with
  | None => Ok None
  | Some id =>
      if applies then
        x <- item l i ;;
        if void x then Ok None else Ok (Some (id ++ sep ++ show x)%string)
      else Ok (Some id)
  end.

Definition nonempty {A : Type} (l : list A) : bool :=
  match l with [] => false | _ => true end.

Definition identifies (type kw : string) : bool :=
  negb (ecl3_params_identifies type kw =? 0).

Section Columns.
Variables (wgnames : list string) (nums : list Z) (lgrs : list string)
          (numlx numly numlz : list Z) (dtype_separator : string).

(** The name built for column [i] with keyword [kw], or [None] when the
    iteration is left through one of the [continue]s on a void entry. *)
Definition column_name (i : nat) (kw : string) : outcome (option string) :=
  id <- Ok (Some kw) ;;
  id <- qualify (identifies WGNAMES kw) wgnames i
                is_void_string (fun x => x) dtype_separator id ;;
  id <- qualify (identifies NUMS kw) nums i
                is_void_int32 decimal dtype_separator id ;;
  id <- qualify (nonempty lgrs && identifies LGRS kw) lgrs i
                is_void_string (fun x => x) dtype_separator id ;;
  id <- qualify (nonempty numlx && identifies NUMLX kw) numlx i
                is_void_int32 decimal dtype_separator id ;;
  id <- qualify (nonempty numly && identifies NUMLY kw) numly i
                is_void_int32 decimal dtype_separator id ;;
  qualify (nonempty numlz && identifies NUMLZ kw) numlz i
          is_void_int32 decimal dtype_separator id.

(** The [for] loop of [columns], from index [i] on, over the keywords
    still to visit. *)
Fixpoint columns_loop (kws : list string) (i : nat)
    (names : list string) (pos : list Z) : outcome (list string * list Z) :=
  match kws with
  | [] => Ok (names, pos)
  | kw :: kws =>
      name <- column_name i kw ;;
      match name with
      | None => columns_loop kws (S i) names pos
      | Some name =>
          (* skip if this is a duplicate somehow *)
          if existsb (String.eqb name) names
          then columns_loop kws (S i) names pos
          else columns_loop kws (S i) (names ++ [name]) (pos ++ [Z.of_nat i])
      end
  end.

(** A qualifier list holds a void entry for column [i], and the keyword
    requires that qualifier. *)
Definition sentinel_at {A : Type} (required : bool) (l : list A) (i : nat)
    (void : A -> bool) : bool :=
  required && match nth_error l i with Some x => void x | None => false end.

(** Some qualifier that the keyword of column [i] requires is void. *)
Definition has_void_qualifier (i : nat) (kw : string) : bool :=
  sentinel_at (identifies WGNAMES kw) wgnames i is_void_string
  || sentinel_at (identifies NUMS kw) nums i is_void_int32
  || sentinel_at (identifies LGRS kw) lgrs i is_void_string
  || sentinel_at (identifies NUMLX kw) numlx i is_void_int32
  || sentinel_at (identifies NUMLY kw) numly i is_void_int32
  || sentinel_at (identifies NUMLZ kw) numlz i is_void_int32.

(** [named kws i cols]: [cols] are the outcomes of [column_name] on the
    keywords [kws], which sit at the indices from [i] on. *)
Fixpoint named (kws : list string) (i : nat) (cols : list (option string))
  : Prop :=
  match kws, cols with
  | [], [] => True
  | kw :: kws, c :: cols => column_name i kw = Ok c /\ named kws (S i) cols
  | _, _ => False
  end.

End Columns.

(** The plan as one list of (name, index) pairs, from the names of the
    columns: a column without a name is left out, and so is one whose name
    the plan already holds. *)
Fixpoint collect (cols : list (option string)) (i : nat)
    (plan : list (string * Z)) : list (string * Z) :=
  match cols with
  | [] => plan
  | None :: cols => collect cols (S i) plan
  | Some name :: cols =>
      if existsb (String.eqb name) (map fst plan)
      then collect cols (S i) plan
      else collect cols (S i) (plan ++ [(name, Z.of_nat i)])
  end.

Definition columns (keywords wgnames : list string) (nums : list Z)
    (lgrs : list string) (numlx numly numlz : list Z)
    (dtype_separator : string) : outcome (list string * list Z) :=
  columns_loop wgnames nums lgrs numlx numly numlz dtype_separator
               keywords 0 [] [].

Definition expect (expected : string) (str : list byte) : outcome unit :=
  if negb (String.length expected =? List.length str)%nat
     || negb (bytes_eqb str (bytes_of_string expected))
  then Fail (runtime_error
               ("expected " ++ expected ++ ", was " ++ string_of_list_ascii str))
  else Ok tt.

Definition end_report_step (kw : raw_array) : bool :=
  bytes_eqb (keyword kw) (bytes_of_string "SEQHDR  ").

(** The [for (auto p : pos)] loop of [readall]: the four bytes at
    [src + p * sizeof(float)] for every position. *)
Fixpoint write_items (pos : list Z) (src : list byte) : outcome (list byte) :=
  match pos with
  | [] => Ok []
  | p :: pos =>
      if p <? 0 then Fail undefined_behaviour
      else
        item <- defined (slice (Z.to_nat p * 4) 4 src) ;;
        rest <- write_items pos src ;;
        Ok (item ++ rest)
  end.

(** The [while (true)] loop of [readall].  The staging buffer, which starts
    zero-filled and which the code doubles when it is full, is the list of
    the rows written so far: row [rows] lies at [rows * rowsize], and the
    bytes of its slot that the loop does not write stay zero.  A row longer
    than its slot runs over the next one, and possibly over the end of the
    buffer; the model stops there.  Every round that does not leave the loop
    reads at least one header record from the file. *)
Fixpoint readall_loop (fuel : nat) (report_step : Z) (stream : stream_reader)
    (rowsize : Z) (pos : list Z) (buffer : list (list byte))
  : outcome (list (list byte)) :=
  match fuel with
  | O => Fail out_of_fuel
  | S fuel =>
      stream <- next stream ;;
      let ministep := last stream in
      if empty ministep then Ok buffer
      else if end_report_step ministep then
        stream <- next stream ;;
        if empty (last stream)
        then Fail (runtime_error "unexpected end-of-file, expected MINISTEP")
        else readall_loop fuel report_step (unget stream) rowsize pos buffer
      else
        expect "MINISTEP" (keyword ministep) ;;
        expect "INTE" (type ministep) ;;
        if rowsize <? 8 + 4 * Z.of_nat (List.length pos)
        then Fail undefined_behaviour
        else
          step <- defined (slice 0 4 (body ministep)) ;;
          stream <- next stream ;;
          let params := last stream in
          if empty params
          then Fail (runtime_error "unexpected end-of-file, expected PARAMS")
          else
            expect "PARAMS  " (keyword params) ;;
            items <- write_items pos (body params) ;;
            let row := host_bytes32 report_step ++ step ++ items in
            let slot :=
              row ++ repeat Ascii.zero (Z.to_nat rowsize - List.length row) in
            readall_loop fuel report_step stream rowsize pos (buffer ++ [slot])
  end.

(** [readall(fname, alloc, rowsize, pos)] on a file with the given
    contents.  [alloc rows] is the byte size of the buffer the callback
    returns; the result is what is copied into it, slot by slot. *)
Definition readall (file : list byte) (alloc : Z -> Z) (rowsize : Z)
    (pos : list Z) : outcome (list (list byte)) :=
  let report_step := 1 in
  let stream := open file in
  if rowsize <? 0 then Fail length_error (* vector(64 * rowsize) *)
  else
    stream <- next stream ;;
    let seqhdr := last stream in
    if empty seqhdr
    then Fail (runtime_error "no initial SEQHDR found, file seems broken")
    else
      expect "SEQHDR  " (keyword seqhdr) ;;
      expect "INTE" (type seqhdr) ;;
      buffer <- readall_loop (S (List.length file)) report_step stream
                             rowsize pos [] ;;
      let rows := Z.of_nat (List.length buffer) in
      if negb (alloc rows =? rowsize * rows)
      then Fail (invalid_argument "internal alloc function size error")
      else Ok buffer.

(** The columns of a row of the matrix. *)
Definition row_report_step (row : list byte) : Z :=
  to_int32 (host_uint (firstn 4 row)).

Definition row_ministep (row : list byte) : Z :=
  to_int32 (host_uint (firstn 4 (skipn 4 row))).

End Core.

(** ** python/ecl3/core.cpp, before [readall]

    The sources hold a second, shorter copy of the file: [columns] reads LGRS
    as integers there and pushes every name it builds, without looking for
    it among the names it has. *)

Module EarlierCore.
Import Summary Core.
Local Open Scope outcome_scope.

Section Columns.
Variables (wgnames : list string) (nums lgrs numlx numly numlz : list Z)
          (dtype_separator : string).

Definition column_name (i : nat) (kw : string) : outcome (option string) :=
  id <- Ok (Some kw) ;;
  id <- qualify (identifies WGNAMES kw) wgnames i
                is_void_string (fun x => x) dtype_separator id ;;
  id <- qualify (identifies NUMS kw) nums i
                is_void_int32 decimal dtype_separator id ;;
  id <- qualify (nonempty lgrs && identifies LGRS kw) lgrs i
                is_void_int32 decimal dtype_separator id ;;
  id <- qualify (nonempty numlx && identifies NUMLX kw) numlx i
                is_void_int32 decimal dtype_separator id ;;
  id <- qualify (nonempty numly && identifies NUMLY kw) numly i
                is_void_int32 decimal dtype_separator id ;;
  qualify (nonempty numlz && identifies NUMLZ kw) numlz i
          is_void_int32 decimal dtype_separator id.

Fixpoint columns_loop (kws : list string) (i : nat)
    (names : list string) (pos : list Z) : outcome (list string * list Z) :=
  match kws with
  | [] => Ok (names, pos)
  | kw :: kws =>
      name <- column_name i kw ;;
      match name with
      | None => columns_loop kws (S i) names pos
      | Some name => columns_loop kws (S i) (names ++ [name]) (pos ++ [Z.of_nat i])
      end
  end.

End Columns.

Definition columns (keywords wgnames : list string)
    (nums lgrs numlx numly numlz : list Z) (dtype_separator : string)
  : outcome (list string * list Z) :=
  columns_loop wgnames nums lgrs numlx numly numlz dtype_separator
               keywords 0 [] [].

End EarlierCore.

(** ** Files for the examples *)

Module Fixture.

Definition be_bytes32 (z : Z) : list byte := rev (host_bytes32 z).

(** A Fortran record: the payload between two length markers. *)
Definition record (payload : list byte) : list byte :=
  be_bytes32 (Z.of_nat (List.length payload)) ++ payload
    ++ be_bytes32 (Z.of_nat (List.length payload)).

Definition header (name : string) (count : Z) (type : string) : list byte :=
  record (bytes_of_string name ++ be_bytes32 count ++ bytes_of_string type).

(** An INTE array in one body record. *)
Definition inte (name : string) (values : list Z) : list byte :=
  header name (Z.of_nat (List.length values)) "INTE"
    ++ record (List.concat (map be_bytes32 values)).

(** A REAL array in one body record, from the bit patterns of its values. *)
Definition real (name : string) (bits : list Z) : list byte :=
  header name (Z.of_nat (List.length bits)) "REAL"
    ++ record (List.concat (map be_bytes32 bits)).

(** A summary file of two report steps, with one ministep each. *)
Definition two_report_steps : list byte :=
  inte "SEQHDR  " [0] ++ inte "MINISTEP" [0] ++ real "PARAMS  " [5; 6; 7]
    ++ inte "SEQHDR  " [0] ++ inte "MINISTEP" [1] ++ real "PARAMS  " [8; 9; 10].

End Fixture.

(** ** The names of the types and of the units *)

Module Names.
Import Keyword.

(** The identifiers of [enum ecl3_typeids] without their [ECL3_] prefix: the
    words [ECL3_MAKE_KWENUM] is applied to, in declaration order. *)
Definition C0_name (nn : Z) : string :=
  String "C" (String "0"
    (String (digit (nn / 10)) (String (digit (nn mod 10)) EmptyString))).

Definition ecl3_type_names : list string :=
  ["INTE"; "REAL"; "DOUB"; "CHAR"; "MESS"; "LOGI"; "X231"]%string
    ++ map (fun n => C0_name (Z.of_nat n)) (seq 1 99).

(** [enum ecl3_unit_systems] and [enum ecl3_simulator_identifiers] *)
Definition ECL3_METRIC := 1.
Definition ECL3_FIELD := 2.
Definition ECL3_LAB := 3.
Definition ECL3_PVTM := 4.

Definition ECL3_ECLIPSE100 := 100.
Definition ECL3_ECLIPSE300 := 300.
Definition ECL3_ECLIPSE300_THERMAL := 500.
Definition ECL3_INTERSECT := 700.
Definition ECL3_FRONTSIM := 800.

(** [ecl3_unit_system_name(sys)]: [None] is the null pointer. *)
Definition ecl3_unit_system_name (sys : Z) : option string :=
  if sys =? ECL3_METRIC then Some "METRIC"%string
  else if sys =? ECL3_FIELD then Some "FIELD"%string
  else if sys =? ECL3_LAB then Some "LAB"%string
  else if sys =? ECL3_PVTM then Some "PVT-M"%string
  else None.

(** [ecl3_simulatorid_name(id)] *)
Definition ecl3_simulatorid_name (id : Z) : option string :=
  if id =? ECL3_ECLIPSE100 then Some "ECLIPSE 100"%string
  else if id =? ECL3_ECLIPSE300 then Some "ECLIPSE 300"%string
  else if id =? ECL3_ECLIPSE300_THERMAL
       then Some "ECLIPSE 300 (thermal option)"%string
  else if id =? ECL3_INTERSECT then Some "INTERSECT"%string
  else if id =? ECL3_FRONTSIM then Some "FrontSim"%string
  else None.

End Names.

(** * Properties *)

Section Classifier.
Import Summary.
Local Open Scope string_scope.

(** C7. The classifier on the documented examples: 1 for (WGNAMES, WOPR),
    0 for (NUMS, WOPR), 2 for both (WGNAMES, COFR) and (NUMS, COFR), 0 for
    (WGNAMES, NEWTON) and 1 for (NUMS, BPR). *)
Theorem identifies_spot_check :
  ecl3_params_identifies "WGNAMES " "WOPR    " = 1%Z /\
  ecl3_params_identifies "NUMS    " "WOPR    " = 0%Z /\
  ecl3_params_identifies "WGNAMES " "COFR    " = 2%Z /\
  ecl3_params_identifies "NUMS    " "COFR    " = 2%Z /\
  ecl3_params_identifies "WGNAMES " "NEWTON  " = 0%Z /\
  ecl3_params_identifies "NUMS    " "BPR     " = 1%Z.
Proof. repeat split; reflexivity. Qed.


(** Evaluate the comparisons between literals, then split on the
    comparisons that involve the keyword, outermost first. *)
Ltac eval_literal_tests :=
  repeat match goal with
  | |- context [String.eqb (std_string ?s ?n) ?t] =>
      lazymatch s with
      | String _ _ =>
          let b := eval vm_compute in (String.eqb (std_string s n) t) in
          change (String.eqb (std_string s n) t) with b
      end
  end.

Ltac split_keyword_tests :=
  repeat (cbv beta iota zeta; cbn [negb orb andb];
          match goal with
          | |- context [Ascii.eqb ?a ?c] =>
              is_var a; destruct (Ascii.eqb a c) eqn:?
          | |- context [String.eqb ?a ?c] =>
              is_var a; destruct (String.eqb a c) eqn:?
          end).

Lemma identifies_consistent_outside_LC (K : string) :
  (Ascii.eqb (char_at K 0) "L" && Ascii.eqb (char_at K 1) "C")%bool = false ->
  forall S, In S ecl3_params_partial_identifiers ->
    (0 < ecl3_params_identifies S K)%Z ->
    ecl3_params_identifies S K = Z.of_nat (List.length (qualifiers K)).
Proof.
  intros HLC S HS.
  unfold qualifiers, ecl3_params_partial_identifiers in *.
  cbn [In] in HS.
  revert HLC.
  intuition (subst S);
    unfold ecl3_params_identifies, WGNAMES, NUMS, LGRS, NUMLX, NUMLY, NUMLZ in *;
    match goal with H : (0 < _)%Z |- _ => revert H end;
    match goal with H : _ = false |- _ => revert H end;
    eval_literal_tests;
    generalize (char_at (std_string K 8) 0); intros n0;
    generalize (substring 0 4 (std_string K 8)); intros prefix;
    generalize (std_string K 8); intros key;
    generalize (char_at K 0); intros k0;
    generalize (char_at K 1); intros k1;
    split_keyword_tests; cbn; intros; try reflexivity; try lia; try discriminate.
Qed.

(** On the keywords of a completion in a local grid the classifier names
    five specifiers and answers 4 for each of them. *)
Lemma identifies_LC (K : string) :
  char_at K 0 = "L"%char -> char_at K 1 = "C"%char ->
  qualifiers K = [WGNAMES; LGRS; NUMLX; NUMLY; NUMLZ]
  /\ forall S, In S (qualifiers K) -> ecl3_params_identifies S K = 4%Z.
Proof.
  intros H0 H1.
  assert (Hid : forall S,
             In S ecl3_params_partial_identifiers ->
             ecl3_params_identifies S K
             = if String.eqb S NUMS then 0%Z else 4%Z).
  { intros S HS. unfold ecl3_params_partial_identifiers in HS. cbn [In] in HS.
    intuition (subst S); unfold ecl3_params_identifies;
      rewrite H0, H1; reflexivity. }
  assert (Hq : qualifiers K = [WGNAMES; LGRS; NUMLX; NUMLY; NUMLZ]).
  { unfold qualifiers, ecl3_params_partial_identifiers. cbn [filter].
    rewrite !Hid by (unfold ecl3_params_partial_identifiers; cbn; tauto).
    reflexivity. }
  split; [assumption|].
  intros S HS. rewrite Hq in HS.
  rewrite Hid by (unfold ecl3_params_partial_identifiers;
                  cbn in HS |- *; tauto).
  cbn [In] in HS. intuition (subst S); reflexivity.
Qed.

(** C2. The classifier on ["LCOFR   "]: five of the six specifiers get a
    positive answer, and the answer each of them gets is 4, so the count of
    qualifying specifiers and the value returned differ. *)
Theorem identifies_LC_count_differs :
  qualifiers "LCOFR   "
  = ["WGNAMES "; "LGRS    "; "NUMLX   "; "NUMLY   "; "NUMLZ   "]
  /\ map (fun S => ecl3_params_identifies S "LCOFR   ") (qualifiers "LCOFR   ")
     = [4; 4; 4; 4; 4]%Z.
Proof. split; reflexivity. Qed.

End Classifier.

(** ** The framed reads *)

Section Reads.
Import Keyword Io.

Lemma read_app (a s : list byte) :
  read (List.length a) (a ++ s) = Some (a, s).
Proof.
  unfold read. rewrite length_app.
  replace (List.length a <=? List.length a + List.length s)%nat with true
    by (symmetry; apply Nat.leb_le; lia).
  rewrite firstn_app, skipn_app, Nat.sub_diag, firstn_all, skipn_all.
  cbn. now rewrite app_nil_r.
Qed.

Lemma read_some (n : nat) (s a s' : list byte) :
  read n s = Some (a, s') ->
  s = a ++ s' /\ List.length a = n /\ a = firstn n s /\ s' = skipn n s.
Proof.
  unfold read. destruct (n <=? List.length s)%nat eqn:E; [|discriminate].
  apply Nat.leb_le in E. intros [= <- <-].
  rewrite firstn_skipn, length_firstn. repeat split; lia.
Qed.

Lemma read_none (n : nat) (s : list byte) :
  read n s = None <-> (List.length s < n)%nat.
Proof.
  unfold read. destruct (n <=? List.length s)%nat eqn:E.
  - apply Nat.leb_le in E. split; [discriminate | lia].
  - apply Nat.leb_gt in E. tauto.
Qed.

Lemma bytes_eqb_eq (a b : list byte) : bytes_eqb a b = true <-> a = b.
Proof. unfold bytes_eqb. destruct (list_eq_dec ascii_dec a b); split; congruence. Qed.

Lemma bytes_eqb_refl (a : list byte) : bytes_eqb a a = true.
Proof. now apply bytes_eqb_eq. Qed.

Lemma bytes_eqb_neq (a b : list byte) : bytes_eqb a b = false <-> a <> b.
Proof. unfold bytes_eqb. destruct (list_eq_dec ascii_dec a b); split; congruence. Qed.

Lemma length4 (A : Type) (l : list A) :
  List.length l = 4%nat -> exists a b c d, l = [a; b; c; d].
Proof.
  destruct l as [|a [|b [|c [|d [|e l]]]]]; try discriminate.
  intros _. now exists a, b, c, d.
Qed.

(** A 32-bit integer read off the file is the big-endian value of its four
    bytes. *)
Lemma get_int32_be (src : list byte) :
  List.length src = 4%nat -> get_int32 src = Ok (to_int32 (be_uint src)).
Proof.
  intros H. destruct (length4 _ _ H) as (a & b & c & d & ->). reflexivity.
Qed.

Lemma check_headtail_same (head : list byte) : check_headtail head head = Ok tt.
Proof. unfold check_headtail. now rewrite bytes_eqb_refl. Qed.

Lemma check_headtail_mismatch (head tail : list byte) :
  List.length head = 4%nat -> List.length tail = 4%nat -> head <> tail ->
  check_headtail head tail
  = Fail (head_tail_error (to_int32 (be_uint head)) (to_int32 (be_uint tail))).
Proof.
  intros Hh Ht Hne. unfold check_headtail.
  apply bytes_eqb_neq in Hne. rewrite Hne.
  now rewrite (get_int32_be _ Hh), (get_int32_be _ Ht).
Qed.

Lemma check_headtail_ok (head tail : list byte) :
  check_headtail head tail = Ok tt -> head = tail.
Proof.
  unfold check_headtail. destruct (bytes_eqb head tail) eqn:E.
  - intros _. now apply bytes_eqb_eq.
  - destruct (get_int32 head); [|discriminate]. cbn.
    destruct (get_int32 tail); discriminate.
Qed.

Lemma array_header_16 (source : list byte) :
  List.length source = 16%nat ->
  ecl3_array_header source
  = Some (ECL3_OK, header_keyword source, header_type source, header_count source).
Proof.
  intros H.
  do 17 (destruct source as [|? source]; try discriminate).
  reflexivity.
Qed.


Lemma read_head_eof (r : stream_reader) :
  (List.length (stream r) < 4)%nat -> read_head r = Ok (sentinel r).
Proof.
  intros H. unfold read_head.
  now rewrite (proj2 (read_none 4 (stream r)) H).
Qed.

Lemma read_head_record (r : stream_reader) (head header tail rest : list byte) :
  stream r = head ++ header ++ tail ++ rest ->
  List.length head = 4%nat -> List.length header = 16%nat ->
  List.length tail = 4%nat ->
  read_head r
  = bind (check_headtail head tail) (fun _ => Ok (with_header r header rest)).
Proof.
  intros Hs Hh Hhd Ht. unfold read_head. rewrite Hs.
  rewrite <- Hh at 1. rewrite read_app.
  rewrite <- Hhd at 1. rewrite read_app.
  rewrite <- Ht at 1. rewrite read_app.
  destruct (check_headtail head tail) as [[]|e]; [|reflexivity].
  cbn [bind]. now rewrite (array_header_16 _ Hhd).
Qed.

Lemma read_head_short (r : stream_reader) :
  (4 <= List.length (stream r) < 24)%nat -> read_head r = Fail ios_failure.
Proof.
  intros H. unfold read_head.
  destruct (read 4 (stream r)) as [[head s1]|] eqn:E1.
  2:{ apply read_none in E1. lia. }
  apply read_some in E1. destruct E1 as (E1 & L1 & _).
  assert (L : List.length (stream r) = (4 + List.length s1)%nat)
    by (rewrite E1, length_app; lia).
  destruct (read 16 s1) as [[header s2]|] eqn:E2; [|reflexivity].
  apply read_some in E2. destruct E2 as (E2 & L2 & _).
  assert (L' : List.length s1 = (16 + List.length s2)%nat)
    by (rewrite E2, length_app; lia).
  destruct (read 4 s2) as [[tail s3]|] eqn:E3; [|reflexivity].
  apply read_some in E3. destruct E3 as (E3 & L3 & _).
  assert (List.length s2 = (4 + List.length s3)%nat)
    by (rewrite E3, length_app; lia).
  lia.
Qed.

(** The two ways [read_head] returns. *)
Lemma read_head_inv (r r' : stream_reader) :
  read_head r = Ok r' ->
  ((List.length (stream r) < 4)%nat /\ r' = sentinel r) \/
  (exists head header rest,
      stream r = head ++ header ++ head ++ rest /\
      List.length head = 4%nat /\ List.length header = 16%nat /\
      r' = with_header r header rest).
Proof.
  intros H.
  destruct (Nat.lt_ge_cases (List.length (stream r)) 4) as [Hlt|Hge].
  { left. rewrite (read_head_eof _ Hlt) in H. now injection H as <-. }
  right. unfold read_head in H.
  destruct (read 4 (stream r)) as [[head s1]|] eqn:E1; [|apply read_none in E1; lia].
  destruct (read 16 s1) as [[header s2]|] eqn:E2; [|discriminate].
  destruct (read 4 s2) as [[tail s3]|] eqn:E3; [|discriminate].
  apply read_some in E1, E2, E3.
  destruct E1 as (E1 & L1 & _), E2 as (E2 & L2 & _), E3 as (E3 & L3 & _).
  destruct (check_headtail head tail) as [[]|e] eqn:Ec; [|discriminate].
  apply check_headtail_ok in Ec. subst tail.
  cbn [bind] in H. rewrite (array_header_16 _ L2) in H. cbn in H.
  injection H as <-.
  exists head, header, s3. subst. repeat split; assumption.
Qed.

Lemma read_head_never_header_error (r : stream_reader) (what : string) :
  read_head r <> Fail (header_error what).
Proof.
  unfold read_head.
  destruct (read 4 (stream r)) as [[head s1]|] eqn:E1; [|discriminate].
  destruct (read 16 s1) as [[header s2]|] eqn:E2; [|discriminate].
  destruct (read 4 s2) as [[tail s3]|] eqn:E3; [|discriminate].
  apply read_some in E1, E2, E3.
  destruct E1 as (E1 & L1 & _), E2 as (E2 & L2 & _), E3 as (E3 & L3 & _).
  rewrite (array_header_16 _ L2).
  unfold check_headtail. destruct (bytes_eqb head tail); [discriminate|].
  rewrite (get_int32_be _ L1), (get_int32_be _ L3). discriminate.
Qed.

End Reads.

Section Header.
Import Keyword Io Fixture.

(** C10. [ecl3_array_header] returns ECL3_OK on every 16-byte input, with
    bytes 0..7 as the keyword, bytes 8..11 read big-endian as the count and
    bytes 12..15 as the type tag, none of them validated; so [read_head]
    never throws its [header_error]. *)
Theorem array_header_infallible (source : list byte) :
  List.length source = 16%nat ->
  ecl3_array_header source
  = Some (ECL3_OK, firstn 8 source, firstn 4 (skipn 12 source),
          to_int32 (be_uint (firstn 4 (skipn 8 source))))
  /\ (forall r what, read_head r <> Fail (header_error what)).
Proof.
  intros H. split.
  - exact (array_header_16 source H).
  - exact read_head_never_header_error.
Qed.

(** On the header of an array named KEY, with count -2 and the tag ????. *)
Lemma array_header_infallible_witness :
  ecl3_array_header (bytes_of_string "KEY     " ++ be_bytes32 (-2)
                       ++ bytes_of_string "????")
  = Some (ECL3_OK, bytes_of_string "KEY     ", bytes_of_string "????", -2)
  /\ (forall r what, read_head r <> Fail (header_error what)).
Proof.
  exact (array_header_infallible
           (bytes_of_string "KEY     " ++ be_bytes32 (-2)
              ++ bytes_of_string "????") eq_refl).
Defined.

End Header.

(** ** The array reader *)

Section Reader.
Import Keyword Io Fixture.

Lemma read_body_unknown (r : stream_reader) :
  fst (ecl3_typeid (type (last r))) <> ECL3_OK ->
  read_body r = Fail (invalid_argument (unknown_type (type (last r)))).
Proof.
  unfold read_body. destruct (ecl3_typeid (type (last r))) as [err ty].
  cbn [fst]. destruct err; [congruence|reflexivity|reflexivity].
Qed.

Lemma read_body_inv (r r' : stream_reader) :
  read_body r = Ok r' ->
  exists ty body s,
    ecl3_typeid (type (last r)) = (ECL3_OK, ty) /\
    read_body_loop (S (List.length (stream r))) ty (snd (ecl3_block_size ty))
                   (count (last r)) [] (stream r) = Ok (0, body, s) /\
    r' = with_body r body s.
Proof.
  unfold read_body. destruct (ecl3_typeid (type (last r))) as [err ty].
  destruct err; cbn [failed]; try discriminate. cbv zeta.
  destruct (read_body_loop _ _ _ _ _ _) as [[[remaining body] s]|e] eqn:EL;
    cbn [bind]; [|discriminate].
  destruct (remaining =? 0) eqn:E; cbn [negb]; [|discriminate].
  apply Z.eqb_eq in E. subst. intros [= <-]. now exists ty, body, s.
Qed.

Lemma read_body_loop_done (fuel : nat) (ty blk remaining : Z) (body s : list byte) :
  remaining <= 0 ->
  read_body_loop fuel ty blk remaining body s = Ok (remaining, body, s).
Proof.
  intros H. destruct fuel; cbn [read_body_loop];
    replace (remaining >? 0) with false by (symmetry; rewrite Z.gtb_ltb; apply Z.ltb_ge; lia);
    reflexivity.
Qed.

(** One round of the loop on a stream that starts with a whole record. *)
Lemma read_body_loop_record (fuel : nat) (ty blk remaining : Z)
    (body head payload tail rest : list byte) :
  0 < remaining ->
  List.length head = 4%nat ->
  to_int32 (be_uint head) = Z.of_nat (List.length payload) ->
  List.length tail = 4%nat ->
  read_body_loop (S fuel) ty blk remaining body (head ++ payload ++ tail ++ rest)
  = bind (check_headtail head tail) (fun _ =>
    bind (defined (ecl3_array_body payload ty remaining blk)) (fun b =>
      let '(err, out, count) := b in
      if failed err then Fail (runtime_error "error parsing array body")
      else read_body_loop fuel ty blk (remaining - count)
             (body ++ out ++ repeat Ascii.zero
                                (List.length payload - List.length out))
             rest)).
Proof.
  intros Hr Hh He Ht. cbn [read_body_loop].
  replace (remaining >? 0) with true by (symmetry; rewrite Z.gtb_ltb; apply Z.ltb_lt; lia).
  rewrite <- Hh at 1. rewrite read_app.
  rewrite (get_int32_be _ Hh). cbn [bind]. rewrite He.
  replace (Z.of_nat (List.length payload) <? 0) with false
    by (symmetry; apply Z.ltb_ge; lia).
  rewrite Nat2Z.id, read_app.
  rewrite <- Ht at 1. rewrite read_app.
  reflexivity.
Qed.

(** A stream that ends inside a body record. *)
Lemma read_body_loop_short (fuel : nat) (ty blk remaining : Z) (body s : list byte) :
  0 < remaining ->
  (List.length s < 4)%nat \/
  (0 <= to_int32 (be_uint (firstn 4 s)) /\
   Z.of_nat (List.length s) < 8 + to_int32 (be_uint (firstn 4 s))) ->
  read_body_loop (S fuel) ty blk remaining body s = Fail ios_failure.
Proof.
  intros Hr H. cbn [read_body_loop].
  replace (remaining >? 0) with true by (symmetry; rewrite Z.gtb_ltb; apply Z.ltb_lt; lia).
  destruct (read 4 s) as [[head s1]|] eqn:E1; [|reflexivity].
  apply read_some in E1. destruct E1 as (E1 & L1 & F1 & _).
  destruct H as [H|[H0 H]]; [rewrite E1, length_app in H; lia|].
  rewrite <- F1 in *. rewrite (get_int32_be _ L1). cbn [bind].
  replace (to_int32 (be_uint head) <? 0) with false
    by (symmetry; apply Z.ltb_ge; lia).
  destruct (read _ s1) as [[buffer s2]|] eqn:E2; [|reflexivity].
  apply read_some in E2. destruct E2 as (E2 & L2 & _).
  destruct (read 4 s2) as [[tail s3]|] eqn:E3; [|reflexivity].
  apply read_some in E3. destruct E3 as (E3 & L3 & _).
  exfalso. subst s s1 s2. rewrite !length_app in H. lia.
Qed.

(** The bound [read_body] puts on its loop is never reached. *)
Lemma read_body_loop_fuel (fuel : nat) :
  forall ty blk remaining body s,
    (List.length s < fuel)%nat ->
    read_body_loop fuel ty blk remaining body s <> Fail out_of_fuel.
Proof.
  induction fuel as [|fuel IH]; intros ty blk remaining body s Hlen; [lia|].
  cbn [read_body_loop]. destruct (remaining >? 0); [|discriminate].
  destruct (read 4 s) as [[head s1]|] eqn:E1; [|discriminate].
  apply read_some in E1. destruct E1 as (E1 & L1 & _).
  rewrite (get_int32_be _ L1). cbn [bind].
  destruct (_ <? 0); [discriminate|].
  destruct (read _ s1) as [[buffer s2]|] eqn:E2; [|discriminate].
  apply read_some in E2. destruct E2 as (E2 & L2 & _).
  destruct (read 4 s2) as [[tail s3]|] eqn:E3; [|discriminate].
  apply read_some in E3. destruct E3 as (E3 & L3 & _).
  destruct (check_headtail head tail) as [[]|e] eqn:Ec.
  2:{ unfold check_headtail in Ec.
      destruct (bytes_eqb head tail); [discriminate|].
      rewrite (get_int32_be _ L1), (get_int32_be _ L3) in Ec.
      injection Ec as <-. discriminate. }
  cbn [bind].
  destruct (ecl3_array_body _ _ _ _) as [[[err out] cnt]|];
    cbn [defined bind]; [|discriminate].
  destruct (failed err); [discriminate|].
  apply IH. subst s s1 s2. rewrite !length_app in Hlen. lia.
Qed.

Lemma read_body_never_out_of_fuel (r : stream_reader) :
  read_body r <> Fail out_of_fuel.
Proof.
  unfold read_body. destruct (ecl3_typeid _) as [err ty].
  destruct (failed err); [discriminate|]. cbv zeta.
  pose proof (read_body_loop_fuel (S (List.length (stream r))) ty
                (snd (ecl3_block_size ty)) (count (last r)) [] (stream r)
                (Nat.lt_succ_diag_r _)) as H.
  destruct (read_body_loop _ _ _ _ _ _) as [[[remaining body] s]|e];
    cbn [bind]; [|congruence].
  destruct (negb _); discriminate.
Qed.

Lemma next_fresh (r : stream_reader) : ungetted r = false -> next r = advance r.
Proof. unfold next. now intros ->. Qed.

Lemma read_body_ungetted (r r' : stream_reader) :
  read_body r = Ok r' -> ungetted r' = ungetted r.
Proof. intros H. apply read_body_inv in H. now destruct H as (? & ? & ? & _ & _ & ->). Qed.

Lemma read_head_ungetted (r r' : stream_reader) :
  read_head r = Ok r' -> ungetted r' = ungetted r.
Proof.
  intros H. apply read_head_inv in H.
  destruct H as [[_ ->]|(? & ? & ? & _ & _ & _ & ->)]; reflexivity.
Qed.

Lemma next_clears_flag (r r' : stream_reader) :
  next r = Ok r' -> ungetted r' = false.
Proof.
  unfold next. destruct (ungetted r) eqn:U.
  - now intros [= <-].
  - unfold advance. destruct (read_head r) as [r0|] eqn:H0; [|discriminate].
    cbn [bind]. apply read_head_ungetted in H0.
    destruct (negb (empty (last r0))).
    + intros H. apply read_body_ungetted in H. congruence.
    + intros [= <-]. congruence.
Qed.

(** [next] only moves forward: the stream never grows, and an array read
    from the file takes at least the 24 bytes of its header record. *)
Lemma read_body_loop_shrinks (fuel : nat) :
  forall ty blk remaining body s remaining' body' s',
    read_body_loop fuel ty blk remaining body s = Ok (remaining', body', s') ->
    (List.length s' <= List.length s)%nat.
Proof.
  induction fuel as [|fuel IH]; intros ty blk remaining body s remaining' body' s';
    cbn [read_body_loop]; destruct (remaining >? 0);
    try discriminate; try (intros [= _ _ <-]; lia).
  destruct (read 4 s) as [[head s1]|] eqn:E1; [|discriminate].
  apply read_some in E1. destruct E1 as (E1 & L1 & _).
  destruct (get_int32 head) as [elems|]; cbn [bind]; [|discriminate].
  destruct (elems <? 0); [discriminate|].
  destruct (read _ s1) as [[buffer s2]|] eqn:E2; [|discriminate].
  apply read_some in E2. destruct E2 as (E2 & L2 & _).
  destruct (read 4 s2) as [[tail s3]|] eqn:E3; [|discriminate].
  apply read_some in E3. destruct E3 as (E3 & L3 & _).
  destruct (check_headtail head tail) as [[]|]; cbn [bind]; [|discriminate].
  destruct (ecl3_array_body _ _ _ _) as [[[err out] cnt]|];
    cbn [defined bind]; [|discriminate].
  destruct (failed err); [discriminate|].
  intros H. apply IH in H. subst s s1 s2. rewrite !length_app. lia.
Qed.

Lemma advance_length (r r' : stream_reader) :
  advance r = Ok r' ->
  (List.length (stream r') <= List.length (stream r))%nat /\
  (empty (last r') = false ->
   (List.length (stream r') + 24 <= List.length (stream r))%nat).
Proof.
  unfold advance. intros H.
  destruct (read_head r) as [r0|] eqn:H0; [|discriminate]. cbn [bind] in H.
  apply read_head_inv in H0.
  destruct H0 as [[_ ->]|(head & header & rest & Hs & Hh & Hhd & ->)].
  - cbn in H. injection H as <-. cbn. split; [lia | discriminate].
  - assert (Hlen : (List.length rest + 24 = List.length (stream r))%nat)
      by (rewrite Hs, !length_app; lia).
    destruct (empty (last (with_header r header rest))) eqn:E0; cbn [negb] in H.
    + injection H as <-. split; [cbn; lia | congruence].
    + apply read_body_inv in H. destruct H as (ty & body & s & _ & Hloop & ->).
      apply read_body_loop_shrinks in Hloop. cbn in Hloop |- *. lia.
Qed.

Lemma next_length (r r' : stream_reader) :
  next r = Ok r' ->
  (List.length (stream r') <= List.length (stream r))%nat /\
  (ungetted r = false -> empty (last r') = false ->
   (List.length (stream r') + 24 <= List.length (stream r))%nat).
Proof.
  unfold next. destruct (ungetted r).
  - intros [= <-]. cbn. split; [lia | discriminate].
  - intros H. apply advance_length in H. tauto.
Qed.

Lemma next_never_out_of_fuel (r : stream_reader) : next r <> Fail out_of_fuel.
Proof.
  unfold next, advance. destruct (ungetted r); [discriminate|].
  destruct (read_head r) as [r0|e] eqn:H0; cbn [bind].
  - destruct (negb _); [apply read_body_never_out_of_fuel | discriminate].
  - intros [= ->]. unfold read_head in H0.
    destruct (read 4 (stream r)) as [[head s1]|]; [|discriminate].
    destruct (read 16 s1) as [[header s2]|] eqn:E2; [|discriminate].
    destruct (read 4 s2) as [[tail s3]|]; [|discriminate].
    apply read_some in E2. destruct E2 as (_ & L2 & _).
    rewrite (array_header_16 _ L2) in H0.
    unfold check_headtail, get_int32 in H0.
    destruct (bytes_eqb head tail); [discriminate|].
    destruct (ecl3_get_native head _ _); cbn [defined bind] in H0; [|discriminate].
    destruct (ecl3_get_native tail _ _); cbn [defined bind] in H0; discriminate.
Qed.




Lemma empty_with_header (r : stream_reader) (header rest : list byte) :
  empty (last (with_header r header rest)) = (header_count header =? -1).
Proof. reflexivity. Qed.

(** C3. A header whose type tag is not one of the enumerated types makes
    [next] fail with the unknown-type error whatever its count, zero
    included, unless the count field is -1, the value the reader keeps for
    the end of the stream; so [next] never hands out an array other than
    that end mark with an invalid type tag. *)
Theorem next_rejects_unknown_type (r : stream_reader) :
  ungetted r = false ->
  (forall head header rest,
      stream r = head ++ header ++ head ++ rest ->
      List.length head = 4%nat -> List.length header = 16%nat ->
      fst (ecl3_typeid (header_type header)) <> ECL3_OK ->
      header_count header <> -1 ->
      next r = Fail (invalid_argument (unknown_type (header_type header))))
  /\ (forall r', next r = Ok r' -> empty (last r') = false ->
        fst (ecl3_typeid (type (last r'))) = ECL3_OK).
Proof.
  intros U. rewrite (next_fresh _ U). unfold advance. split.
  - intros head header rest Hs Hh Hhd Hty Hc.
    rewrite (read_head_record r head header head rest Hs Hh Hhd Hh).
    rewrite check_headtail_same. cbn [bind].
    rewrite empty_with_header.
    apply Z.eqb_neq in Hc. rewrite Hc. cbn [negb].
    now apply read_body_unknown.
  - intros r' H He.
    destruct (read_head r) as [r0|] eqn:H0; [|discriminate]. cbn [bind] in H.
    destruct (empty (last r0)) eqn:E0; cbn [negb] in H.
    + injection H as <-. congruence.
    + apply read_body_inv in H. destruct H as (ty & body & s & Hty & _ & ->).
      cbn. now rewrite Hty.
Qed.

(** On an array of no elements with the tag XXXX. *)
Lemma next_rejects_unknown_type_witness :
  next (open (header "KEY     " 0 "XXXX"))
  = Fail (invalid_argument "unknown type'XXXX'").
Proof.
  exact (proj1 (next_rejects_unknown_type (open (header "KEY     " 0 "XXXX")) eq_refl)
           (be_bytes32 16)
           (bytes_of_string "KEY     " ++ be_bytes32 0 ++ bytes_of_string "XXXX")
           [] eq_refl eq_refl eq_refl
           (fun H => ltac:(vm_compute in H; discriminate))
           (fun H => ltac:(vm_compute in H; discriminate))).
Defined.

(** Against C3 as stated: a header with an invalid type tag and a count
    field of -1 is returned by [next], not rejected. *)
Lemma unknown_type_returned_with_count_minus_one :
  exists r',
    next (open (header "KEY     " (-1) "XXXX")) = Ok r' /\
    type (last r') = bytes_of_string "XXXX" /\
    fst (ecl3_typeid (type (last r'))) = ECL3_INVALID_ARGS.
Proof. eexists. repeat split. Qed.


(** C5. Framing. A header record or a body record whose head and tail
    differ makes the reader fail with the head/tail error, which carries
    the two markers as integers. A stream that ends within the four bytes
    of the head marker of a header record, whether none or some of them are
    left, gives the end-of-stream result (count -1); a stream that ends
    later in the header record, or anywhere in a body record, is an
    error. *)
Theorem framing_checked :
  (forall r head header tail rest,
      ungetted r = false ->
      stream r = head ++ header ++ tail ++ rest ->
      List.length head = 4%nat -> List.length header = 16%nat ->
      List.length tail = 4%nat -> head <> tail ->
      next r = Fail (head_tail_error (to_int32 (be_uint head))
                                     (to_int32 (be_uint tail))))
  /\ (forall fuel ty blk remaining body head payload tail rest,
      0 < remaining ->
      List.length head = 4%nat ->
      to_int32 (be_uint head) = Z.of_nat (List.length payload) ->
      List.length tail = 4%nat -> head <> tail ->
      read_body_loop (S fuel) ty blk remaining body
                     (head ++ payload ++ tail ++ rest)
      = Fail (head_tail_error (to_int32 (be_uint head))
                              (to_int32 (be_uint tail))))
  /\ (forall r,
      ungetted r = false -> (List.length (stream r) < 4)%nat ->
      exists r', next r = Ok r' /\ count (last r') = -1)
  /\ (forall r,
      ungetted r = false -> (4 <= List.length (stream r) < 24)%nat ->
      next r = Fail ios_failure)
  /\ (forall fuel ty blk remaining body s,
      0 < remaining ->
      (List.length s < 4)%nat \/
      (0 <= to_int32 (be_uint (firstn 4 s)) /\
       Z.of_nat (List.length s) < 8 + to_int32 (be_uint (firstn 4 s))) ->
      read_body_loop (S fuel) ty blk remaining body s = Fail ios_failure).
Proof.
  repeat apply conj.
  - intros r head header tail rest U Hs Hh Hhd Ht Hne.
    rewrite (next_fresh _ U). unfold advance.
    rewrite (read_head_record r head header tail rest Hs Hh Hhd Ht).
    now rewrite (check_headtail_mismatch _ _ Hh Ht Hne).
  - intros fuel ty blk remaining body head payload tail rest Hr Hh He Ht Hne.
    rewrite (read_body_loop_record _ _ _ _ _ _ _ _ _ Hr Hh He Ht).
    now rewrite (check_headtail_mismatch _ _ Hh Ht Hne).
  - intros r U Hlen. exists (sentinel r).
    rewrite (next_fresh _ U). unfold advance.
    rewrite (read_head_eof _ Hlen). split; reflexivity.
  - intros r U Hlen.
    rewrite (next_fresh _ U). unfold advance.
    now rewrite (read_head_short _ Hlen).
  - intros. now apply read_body_loop_short.
Qed.

(** On a header record closed by 20 instead of 16, a body record opened by
    4 and closed by 8, an empty file, and a file that ends in the header. *)
Lemma framing_checked_witness :
  next (open (be_bytes32 16 ++ bytes_of_string "KEY     INTE    "
                ++ be_bytes32 20))
  = Fail (head_tail_error 16 20)
  /\ read_body_loop 10 ECL3_INTE 1000 1 []
                     (be_bytes32 4 ++ be_bytes32 7 ++ be_bytes32 8)
     = Fail (head_tail_error 4 8)
  /\ (exists r', next (open []) = Ok r' /\ count (last r') = -1)
  /\ next (open (be_bytes32 16 ++ bytes_of_string "KEY ")) = Fail ios_failure.
Proof.
  destruct framing_checked as (Hhead & Hbody & Heof & Hshort & _).
  repeat apply conj.
  - refine (Hhead (open _) (be_bytes32 16) (bytes_of_string "KEY     INTE    ")
              (be_bytes32 20) [] eq_refl eq_refl eq_refl eq_refl eq_refl _).
    vm_compute. discriminate.
  - refine (Hbody 9%nat ECL3_INTE 1000 1 [] (be_bytes32 4) (be_bytes32 7)
              (be_bytes32 8) [] eq_refl eq_refl eq_refl eq_refl _).
    vm_compute. discriminate.
  - refine (Heof (open []) eq_refl _). cbn. lia.
  - refine (Hshort (open _) eq_refl _). cbn. lia.
Defined.

(** Against C5 as stated: a stream that ends two bytes into the head
    marker of a header record is a short read that is not a clean end of
    stream, and [next] answers with the end-of-stream mark, not an
    error. *)
Lemma truncated_head_reads_as_end_of_stream :
  let r := open [Ascii.zero; Ascii.zero] in
  stream r <> [] /\ (List.length (stream r) < 4)%nat /\
  exists r', next r = Ok r' /\ empty (last r') = true.
Proof.
  cbn zeta. repeat split; [discriminate | cbn; lia |].
  eexists. split; reflexivity.
Qed.


(** *** The length of the body *)

Lemma length_elements (size n : nat) (src : list byte) :
  (n * size <= List.length src)%nat ->
  List.length (List.concat (map (@rev byte) (elements size n src)))
  = (n * size)%nat.
Proof.
  revert src. induction n as [|n IH]; intros src H; [reflexivity|].
  cbn [elements map List.concat]. rewrite length_app, length_rev, length_firstn.
  rewrite IH by (rewrite length_skipn; lia). lia.
Qed.

Lemma get_native_ok (src : list byte) (fmt size : Z) (elems : nat) :
  ecl3_type_size fmt = (ECL3_OK, size) ->
  (elems * Z.to_nat size <= List.length src)%nat ->
  exists out,
    ecl3_get_native src fmt elems = Some (ECL3_OK, out) /\
    List.length out = (elems * Z.to_nat size)%nat.
Proof.
  intros Hsz Hlen. unfold ecl3_get_native. rewrite Hsz. cbv beta iota zeta.
  replace (elems * Z.to_nat size <=? List.length src)%nat with true
    by (symmetry; now apply Nat.leb_le).
  destruct (Zmem fmt _); eexists; (split; [reflexivity|]).
  - rewrite length_firstn. lia.
  - now apply length_elements.
Qed.

Lemma block_size_pos (tag : list byte) (ty : Z) :
  ecl3_typeid tag = (ECL3_OK, ty) -> 0 < snd (ecl3_block_size ty).
Proof.
  unfold ecl3_typeid, ecl3_keyword_type. cbv zeta.
  generalize (to_int32 (be_uint (firstn 4 tag))). intros kw.
  destruct (Zmem kw ecl3_typeids) eqn:E; [|discriminate].
  intros [= <-]. unfold ecl3_block_size.
  destruct (Zmem kw (ECL3_CHAR :: ECL3_C0NN)); [reflexivity|].
  rewrite E. reflexivity.
Qed.

(** What [ecl3_array_body] does with a record of a conforming stream. *)
Lemma array_body_conforming (ty size blk remaining : Z) (payload : list byte) :
  ecl3_type_size ty = (ECL3_OK, size) -> 0 < blk -> 0 < remaining ->
  Z.of_nat (List.length payload) = size * Z.min remaining blk ->
  exists out,
    ecl3_array_body payload ty remaining blk
    = Some (ECL3_OK, out, Z.min remaining blk) /\
    List.length out = List.length payload.
Proof.
  intros Hsz Hblk Hr Hp. unfold ecl3_array_body.
  set (n := Z.min remaining blk) in *.
  assert (Hn : 1 <= n <= remaining) by (unfold n; lia).
  assert (Hsize : 0 <= size) by nia.
  assert (Hlen : (Z.to_nat n * Z.to_nat size)%nat = List.length payload).
  { apply Nat2Z.inj. rewrite Nat2Z.inj_mul, !Z2Nat.id by lia. lia. }
  destruct (get_native_ok payload ty size (Z.to_nat n) Hsz) as (out & Hout & Hl);
    [lia|].
  rewrite Hout. exists out. split; [reflexivity | congruence].
Qed.

(** On conforming body records the loop appends [size] bytes for every
    element still to go. *)
Lemma read_body_loop_conforming (ty size blk : Z) :
  ecl3_type_size ty = (ECL3_OK, size) -> 0 < blk ->
  forall remaining s, conforming size blk remaining s ->
  forall fuel body remaining' body' s',
    read_body_loop fuel ty blk remaining body s = Ok (remaining', body', s') ->
    Z.of_nat (List.length body')
    = Z.of_nat (List.length body) + size * Z.max remaining 0.
Proof.
  intros Hsz Hblk remaining s Hc.
  induction Hc as [remaining s Hr
                  |remaining marker payload s Hr Hm He Hp Hc IH];
    intros fuel body remaining' body' s' H.
  - rewrite (read_body_loop_done _ _ _ _ _ _ Hr) in H.
    injection H as <- <- <-. rewrite Z.max_r by lia. lia.
  - destruct fuel as [|fuel].
    { cbn [read_body_loop] in H.
      replace (remaining >? 0) with true in H
        by (symmetry; rewrite Z.gtb_ltb; apply Z.ltb_lt; lia).
      discriminate. }
    rewrite (read_body_loop_record _ _ _ _ _ _ _ _ _ Hr Hm He Hm) in H.
    rewrite check_headtail_same in H. cbn [bind] in H.
    destruct (array_body_conforming _ _ _ _ _ Hsz Hblk Hr Hp) as (out & Hout & Hl).
    rewrite Hout in H. cbn [defined bind failed] in H. cbv beta iota in H.
    apply IH in H. rewrite H, !length_app, repeat_length, Hl.
    rewrite !Z.max_l by lia. rewrite Z.mul_sub_distr_l. lia.
Qed.

(** And it comes to its end: a conforming stream is read without error. *)
Lemma read_body_loop_succeeds (ty size blk : Z) :
  ecl3_type_size ty = (ECL3_OK, size) -> 0 < blk ->
  forall remaining s, conforming size blk remaining s ->
  forall fuel body,
    (List.length s < fuel)%nat ->
    exists body' s',
      read_body_loop fuel ty blk remaining body s
      = Ok (Z.min remaining 0, body', s').
Proof.
  intros Hsz Hblk remaining s Hc.
  induction Hc as [remaining s Hr
                  |remaining marker payload s Hr Hm He Hp Hc IH];
    intros fuel body Hfuel.
  - rewrite (read_body_loop_done _ _ _ _ _ _ Hr), Z.min_l by lia.
    now exists body, s.
  - destruct fuel as [|fuel]; [lia|].
    rewrite (read_body_loop_record _ _ _ _ _ _ _ _ _ Hr Hm He Hm).
    rewrite check_headtail_same. cbn [bind].
    destruct (array_body_conforming _ _ _ _ _ Hsz Hblk Hr Hp) as (out & Hout & Hl).
    rewrite Hout. cbn [defined bind failed]. cbv beta iota.
    rewrite !length_app in Hfuel.
    destruct (IH fuel (body ++ out ++ repeat Ascii.zero
                                (List.length payload - List.length out)))
      as (body' & s' & H); [lia|].
    rewrite H. exists body', s'. do 2 f_equal. f_equal. lia.
Qed.

(** An array written the way the producer writes it is read back whole:
    [next] succeeds, with the fields of the header and a body of
    [count * size] bytes. *)
Lemma next_reads_conforming_array (r : stream_reader)
    (marker header rest : list byte) (ty size : Z) :
  ungetted r = false ->
  stream r = marker ++ header ++ marker ++ rest ->
  List.length marker = 4%nat -> List.length header = 16%nat ->
  ecl3_typeid (header_type header) = (ECL3_OK, ty) ->
  ecl3_type_size ty = (ECL3_OK, size) ->
  0 <= header_count header ->
  conforming size (snd (ecl3_block_size ty)) (header_count header) rest ->
  exists r',
    next r = Ok r' /\
    keyword (last r') = header_keyword header /\
    type (last r') = header_type header /\
    count (last r') = header_count header /\
    Z.of_nat (List.length (body (last r'))) = header_count header * size.
Proof.
  intros U Hs Hm Hhd Hty Hsz Hc Hconf.
  rewrite (next_fresh _ U). unfold advance.
  rewrite (read_head_record r marker header marker rest Hs Hm Hhd Hm).
  rewrite check_headtail_same. cbn [bind].
  rewrite empty_with_header.
  replace (header_count header =? -1) with false
    by (symmetry; apply Z.eqb_neq; lia).
  cbn [negb]. unfold read_body, with_header.
  cbn [last stream count Io.type keyword Io.body ungetted].
  rewrite Hty. cbn [failed]. cbv zeta.
  pose proof (block_size_pos _ _ Hty) as Hblk.
  destruct (read_body_loop_succeeds ty size _ Hsz Hblk _ _ Hconf
              (S (List.length rest)) [] (Nat.lt_succ_diag_r _))
    as (body' & s' & Hloop).
  pose proof (read_body_loop_conforming ty size _ Hsz Hblk _ _ Hconf
                _ _ _ _ _ Hloop) as Hlen.
  rewrite Hloop. cbn [bind]. rewrite Z.min_r by lia. cbn [Z.eqb negb].
  eexists. split; [reflexivity|]. cbn. repeat split.
  cbn [List.length] in Hlen. lia.
Qed.

(** C6. The body of an array [next] hands out is [count] elements long,
    [count * element_size(type)] bytes, when every body record of the array
    holds exactly [min(remaining, block_length)] elements; the reader does
    not compare the length of a record with what it decodes from it. An
    array of zero elements consumes no body record and has an empty
    body. *)
Theorem body_length_of_conforming_records (r r' : stream_reader) :
  ungetted r = false ->
  next r = Ok r' ->
  empty (last r') = false ->
  (count (last r') = 0 ->
     body (last r') = [] /\ stream r' = skipn 24 (stream r))
  /\ (forall ty size,
        ecl3_typeid (type (last r')) = (ECL3_OK, ty) ->
        ecl3_type_size ty = (ECL3_OK, size) ->
        conforming size (snd (ecl3_block_size ty)) (count (last r'))
                   (skipn 24 (stream r)) ->
        Z.of_nat (List.length (body (last r'))) = count (last r') * size).
Proof.
  intros U H He. rewrite (next_fresh _ U) in H. unfold advance in H.
  destruct (read_head r) as [r0|] eqn:H0; [|discriminate]. cbn [bind] in H.
  destruct (empty (last r0)) eqn:E0; cbn [negb] in H; [injection H as <-; congruence|].
  apply read_head_inv in H0.
  destruct H0 as [[_ ->]|(head & header & rest & Hs & Hh & Hhd & ->)];
    [discriminate|].
  assert (Hskip : skipn 24 (stream r) = rest).
  { rewrite Hs, !app_assoc.
    replace 24%nat with (List.length ((head ++ header) ++ head))
      by (rewrite !length_app; lia).
    rewrite skipn_app, Nat.sub_diag, skipn_all. reflexivity. }
  rewrite Hskip.
  apply read_body_inv in H. destruct H as (ty & body & s & Hty & Hloop & ->).
  unfold with_body, with_header in *.
  cbn [last stream count Io.type keyword Io.body ungetted] in *. split.
  - intros Hc. rewrite Hc in Hloop.
    rewrite read_body_loop_done in Hloop by lia.
    now injection Hloop as <- <-.
  - intros ty' size Hty' Hsz Hconf.
    rewrite Hty in Hty'. injection Hty' as <-.
    assert (Hpos : 0 <= header_count header).
    { destruct (Z.le_gt_cases 0 (header_count header)) as [|Hneg]; [assumption|].
      rewrite read_body_loop_done in Hloop by lia.
      injection Hloop as Hz _ _. lia. }
    pose proof (read_body_loop_conforming ty size _ Hsz (block_size_pos _ _ Hty)
                  _ _ Hconf _ _ _ _ _ Hloop) as Hlen.
    cbn [List.length] in Hlen. lia.
Qed.

(** On the INTE array [1, 2] in one record of eight bytes. *)
Lemma body_length_of_conforming_records_witness :
  let r := open (inte "KEY     " [1; 2]) in
  exists r',
    next r = Ok r' /\ count (last r') = 2 /\
    Z.of_nat (List.length (body (last r'))) = 2 * 4.
Proof.
  cbn zeta. eexists. split; [reflexivity|]. split; [reflexivity|].
  refine (proj2 (body_length_of_conforming_records
                   (open (inte "KEY     " [1; 2])) _ eq_refl eq_refl eq_refl)
            ECL3_INTE 4 eq_refl eq_refl _).
  refine (conforming_record 4 1000 2 (be_bytes32 8)
            (be_bytes32 1 ++ be_bytes32 2) []
            _ eq_refl eq_refl eq_refl _).
  - lia.
  - apply conforming_done. cbn. lia.
Defined.

(** Against C6 as stated: an array of two INTE elements whose single body
    record carries twelve bytes is handed out with a body of twelve bytes,
    not eight. *)
Lemma oversized_record_gives_longer_body :
  exists r',
    next (open (header "KEY     " 2 "INTE"
                  ++ record (be_bytes32 1 ++ be_bytes32 2 ++ be_bytes32 3)))
    = Ok r' /\
    count (last r') = 2 /\
    ecl3_typeid (type (last r')) = (ECL3_OK, ECL3_INTE) /\
    ecl3_type_size ECL3_INTE = (ECL3_OK, 4) /\
    List.length (body (last r')) = 12%nat.
Proof. eexists. repeat split. Qed.

End Reader.

(** ** The column plan *)

Section Plan.
Import Summary Core.

Lemma existsb_eqb_In (name : string) (names : list string) :
  existsb (String.eqb name) names = true <-> In name names.
Proof.
  rewrite existsb_exists. split.
  - intros (x & Hx & E). apply String.eqb_eq in E. now subst.
  - intros H. exists name. split; [assumption | apply String.eqb_refl].
Qed.

Lemma collect_incl (cols : list (option string)) :
  forall i plan x, In x plan -> In x (collect cols i plan).
Proof.
  induction cols as [|[name|] cols IH]; intros i plan x H; cbn [collect].
  - assumption.
  - destruct (existsb _ _); apply IH; [assumption|].
    apply in_or_app. now left.
  - now apply IH.
Qed.

Lemma collect_NoDup (cols : list (option string)) :
  forall i plan, NoDup (map fst plan) -> NoDup (map fst (collect cols i plan)).
Proof.
  induction cols as [|[name|] cols IH]; intros i plan H; cbn [collect].
  - assumption.
  - destruct (existsb _ _) eqn:E; apply IH; [assumption|].
    rewrite map_app. cbn [map fst].
    apply NoDup_app; [assumption | repeat constructor; intros [] |].
    intros a Ha [<-|[]].
    apply existsb_eqb_In in Ha. congruence.
  - now apply IH.
Qed.

(** Where an entry of the plan comes from: it was there before, or it is
    the first column of its name. *)
Lemma collect_origin (cols : list (option string)) :
  forall i plan name p,
    In (name, p) (collect cols i plan) ->
    In (name, p) plan \/
    exists k,
      p = Z.of_nat (i + k) /\ nth_error cols k = Some (Some name) /\
      ~ In name (map fst plan) /\
      forall k', (k' < k)%nat -> nth_error cols k' <> Some (Some name).
Proof.
  induction cols as [|[name0|] cols IH]; intros i plan name p H; cbn [collect] in H.
  - now left.
  - destruct (existsb _ _) eqn:E.
    + apply existsb_eqb_In in E.
      apply IH in H. destruct H as [H|(k & -> & Hk & Hn & Hfirst)]; [now left|].
      right. exists (S k). repeat split.
      * f_equal. lia.
      * assumption.
      * assumption.
      * intros [|k'] Hlt; cbn [nth_error]; [congruence | apply Hfirst; lia].
    + assert (Hfresh : ~ In name0 (map fst plan)).
      { intros Hin. apply existsb_eqb_In in Hin. congruence. }
      apply IH in H. destruct H as [H|(k & -> & Hk & Hn & Hfirst)].
      * apply in_app_or in H. destruct H as [H|[[= <- <-]|[]]]; [now left|].
        right. exists 0%nat. repeat split.
        -- f_equal. lia.
        -- assumption.
        -- intros k' Hlt. lia.
      * rewrite map_app, in_app_iff in Hn. cbn in Hn.
        right. exists (S k). repeat split.
        -- f_equal. lia.
        -- assumption.
        -- tauto.
        -- intros [|k'] Hlt; cbn [nth_error];
             [intros [= ->]; tauto | apply Hfirst; lia].
  - apply IH in H. destruct H as [H|(k & -> & Hk & Hn & Hfirst)]; [now left|].
    right. exists (S k). repeat split.
    + f_equal. lia.
    + assumption.
    + assumption.
    + intros [|k'] Hlt; cbn [nth_error]; [discriminate | apply Hfirst; lia].
Qed.

(** Where a named column ends up: in the plan under its own index, unless
    the plan already held its name or an earlier column brought it. *)
Lemma collect_kept (cols : list (option string)) :
  forall i plan k name,
    nth_error cols k = Some (Some name) ->
    In (name, Z.of_nat (i + k)) (collect cols i plan) \/
    In name (map fst plan) \/
    exists k', (k' < k)%nat /\ In (name, Z.of_nat (i + k')) (collect cols i plan).
Proof.
  induction cols as [|c cols IH]; intros i plan k name Hk;
    [destruct k; discriminate|].
  destruct k as [|k]; cbn [nth_error] in Hk.
  - injection Hk as ->. cbn [collect].
    destruct (existsb _ _) eqn:E.
    + right. left. now apply existsb_eqb_In.
    + left. apply collect_incl, in_or_app. right. left.
      f_equal. f_equal. lia.
  - assert (Hstep : forall plan',
               In (name, Z.of_nat (S i + k)) (collect cols (S i) plan') \/
               In name (map fst plan') \/
               (exists k', (k' < k)%nat /\
                  In (name, Z.of_nat (S i + k')) (collect cols (S i) plan')))
      by (intros plan'; now apply IH).
    assert (Hshift : forall plan',
               (In name (map fst plan') ->
                In name (map fst plan) \/
                In (name, Z.of_nat (i + 0)) (collect cols (S i) plan')) ->
               In (name, Z.of_nat (i + S k)) (collect cols (S i) plan') \/
               In name (map fst plan) \/
               (exists k', (k' < S k)%nat /\
                  In (name, Z.of_nat (i + k')) (collect cols (S i) plan'))).
    { intros plan' Hnames.
      destruct (Hstep plan') as [H|[H|(k' & Hlt & H)]].
      - left. now replace (i + S k)%nat with (S i + k)%nat by lia.
      - destruct (Hnames H) as [H'|H']; [now (right; left)|].
        right. right. exists 0%nat. split; [lia | assumption].
      - right. right. exists (S k'). split; [lia|].
        now replace (i + S k')%nat with (S i + k')%nat by lia. }
    destruct c as [name0|]; cbn [collect].
    + destruct (existsb _ _) eqn:E.
      * apply Hshift. now left.
      * apply Hshift. rewrite map_app, in_app_iff. cbn.
        intros [H|[<-|[]]]; [now left|].
        right. apply collect_incl, in_or_app. right. left.
        f_equal. f_equal. lia.
    + apply Hshift. now left.
Qed.

Section Lists.
Variables (wgnames : list string) (nums : list Z) (lgrs : list string)
          (numlx numly numlz : list Z) (sep : string).

Let column_name := column_name wgnames nums lgrs numlx numly numlz sep.
Let columns_loop := columns_loop wgnames nums lgrs numlx numly numlz sep.
Let named := named wgnames nums lgrs numlx numly numlz sep.
Let has_void_qualifier := has_void_qualifier wgnames nums lgrs numlx numly numlz.

(** The loop computes [collect] of the column names. *)
Lemma columns_loop_collect (kws : list string) :
  forall i plan res,
    columns_loop kws i (map fst plan) (map snd plan) = Ok res ->
    exists cols,
      named kws i cols /\
      res = (map fst (collect cols i plan), map snd (collect cols i plan)).
Proof.
  induction kws as [|kw kws IH]; intros i plan res H.
  - exists []. split; [exact I|]. now injection H as <-.
  - cbn [columns_loop Core.columns_loop] in H.
    destruct (Core.column_name _ _ _ _ _ _ _ i kw) as [[name|]|] eqn:E;
      cbn [bind] in H; [| |discriminate].
    + destruct (existsb _ _) eqn:Ex.
      * apply IH in H. destruct H as (cols & Hn & ->).
        exists (Some name :: cols). split; [now split|].
        cbn [collect]. now rewrite Ex.
      * replace (map fst plan ++ [name])
          with (map fst (plan ++ [(name, Z.of_nat i)])) in H
          by now rewrite map_app.
        replace (map snd plan ++ [Z.of_nat i])
          with (map snd (plan ++ [(name, Z.of_nat i)])) in H
          by now rewrite map_app.
        apply IH in H. destruct H as (cols & Hn & ->).
        exists (Some name :: cols). split; [now split|].
        cbn [collect]. now rewrite Ex.
    + apply IH in H. destruct H as (cols & Hn & ->).
      exists (None :: cols). split; [now split|]. reflexivity.
Qed.

Lemma named_keyword (kws : list string) :
  forall i cols k kw,
    named kws i cols -> nth_error kws k = Some kw ->
    exists c, nth_error cols k = Some c /\ column_name (i + k) kw = Ok c.
Proof.
  induction kws as [|kw0 kws IH]; intros i cols k kw Hn Hk;
    [destruct k; discriminate|].
  destruct cols as [|c cols]; [contradiction|]. destruct Hn as [H0 Hn].
  destruct k as [|k]; cbn [nth_error] in *.
  - injection Hk as <-. exists c. now rewrite Nat.add_0_r.
  - destruct (IH _ _ _ _ Hn Hk) as (c' & Hc & Hname).
    exists c'. split; [assumption|].
    now replace (i + S k)%nat with (S i + k)%nat by lia.
Qed.

Lemma named_column (kws : list string) :
  forall i cols k c,
    named kws i cols -> nth_error cols k = Some c ->
    exists kw, nth_error kws k = Some kw /\ column_name (i + k) kw = Ok c.
Proof.
  induction kws as [|kw0 kws IH]; intros i cols k c Hn Hk.
  - destruct cols; [destruct k; discriminate | contradiction].
  - destruct cols as [|c0 cols]; [contradiction|]. destruct Hn as [H0 Hn].
    destruct k as [|k]; cbn [nth_error] in *.
    + injection Hk as <-. exists kw0. now rewrite Nat.add_0_r.
    + destruct (IH _ _ _ _ Hn Hk) as (kw & Hkw & Hname).
      exists kw. split; [assumption|].
      now replace (i + S k)%nat with (S i + k)%nat by lia.
Qed.

(** The void entries: [":+:+:+:+"] or eight spaces for a name, a number
    below zero. *)
Lemma is_void_string_iff (str : string) :
  is_void_string str = true <-> str = ":+:+:+:+"%string \/ str = "        "%string.
Proof.
  unfold is_void_string. rewrite orb_true_iff, !String.eqb_eq. reflexivity.
Qed.

Lemma is_void_int32_iff (i : Z) : is_void_int32 i = true <-> i < 0.
Proof. unfold is_void_int32. apply Z.ltb_lt. Qed.

Lemma qualify_some (A : Type) (applies : bool) (l : list A) (i : nat)
    (void : A -> bool) (show : A -> string) (id : string)
    (res : option string) :
  qualify applies l i void show sep (Some id) = Ok res ->
  (res = None /\ sentinel_at applies l i void = true) \/
  (exists id', res = Some id' /\ sentinel_at applies l i void = false).
Proof.
  unfold qualify, sentinel_at, item.
  destruct applies; cbn [andb].
  - destruct (nth_error l i) as [x|]; cbn [bind]; [|discriminate].
    destruct (void x); intros [= <-]; [left | right; eexists]; split; reflexivity.
  - intros [= <-]. right. eexists. split; reflexivity.
Qed.

Lemma sentinel_at_nonempty (A : Type) (required : bool) (l : list A)
    (i : nat) (void : A -> bool) :
  sentinel_at (nonempty l && required) l i void = sentinel_at required l i void.
Proof.
  unfold sentinel_at. destruct l as [|x l]; cbn [nonempty andb].
  - destruct i; cbn [nth_error]; now rewrite andb_false_r.
  - reflexivity.
Qed.

Ltac qualify_step :=
  match goal with
  | |- context [qualify ?a ?l ?i ?v ?sh sep (Some ?id)] =>
      let Q := fresh "Q" in
      destruct (qualify a l i v sh sep (Some id)) as [?|] eqn:Q;
      cbn [bind]; [|discriminate];
      apply qualify_some in Q;
      rewrite ?sentinel_at_nonempty in Q;
      destruct Q as [[-> Q] | (? & -> & Q)];
      [cbn [bind qualify] | cbn [bind]]
  end.

(** A column gets no name exactly when one of the qualifiers its keyword
    requires is void. *)
Lemma column_name_void (i : nat) (kw : string) (c : option string) :
  column_name i kw = Ok c ->
  has_void_qualifier i kw = match c with None => true | Some _ => false end.
Proof.
  unfold column_name, Core.column_name, has_void_qualifier,
    Core.has_void_qualifier.
  cbn [bind].
  do 5 (qualify_step;
        [intros [= <-];
         repeat match goal with
                | H : sentinel_at _ _ _ _ = _ |- _ => rewrite H; clear H
                end;
         cbn [orb]; now rewrite ?orb_true_r|]).
  intros Qz. apply qualify_some in Qz.
  rewrite ?sentinel_at_nonempty in Qz.
  destruct Qz as [[-> Qz] | (? & -> & Qz)];
    repeat match goal with
           | H : sentinel_at _ _ _ _ = _ |- _ => rewrite H; clear H
           end; reflexivity.
Qed.

(** C9. The plan holds no name twice: of the entries of the .SMSPEC
    arrays that get the same qualified name, it keeps the first, with
    that name and that entry's index, and drops the later ones. *)
Theorem columns_keep_first_occurrence
    (keywords names : list string) (pos : list Z) :
  columns keywords wgnames nums lgrs numlx numly numlz sep = Ok (names, pos) ->
  NoDup names
  /\ List.length pos = List.length names
  /\ (forall name p,
        In (name, p) (combine names pos) ->
        exists i kw,
          p = Z.of_nat i /\ nth_error keywords i = Some kw /\
          column_name i kw = Ok (Some name) /\
          forall i' kw', (i' < i)%nat -> nth_error keywords i' = Some kw' ->
                         column_name i' kw' <> Ok (Some name))
  /\ (forall i kw name,
        nth_error keywords i = Some kw ->
        column_name i kw = Ok (Some name) -> In name names).
Proof.
  intros H. unfold columns in H.
  apply (columns_loop_collect keywords 0 []) in H.
  destruct H as (cols & Hn & [= -> ->]).
  set (plan := collect cols 0 []).
  assert (Hcomb : combine (map fst plan) (map snd plan) = plan).
  { clearbody plan. induction plan as [|[a b] plan IH]; cbn; congruence. }
  rewrite Hcomb. repeat apply conj.
  - apply collect_NoDup. constructor.
  - now rewrite !length_map.
  - intros name p Hin. apply collect_origin in Hin.
    destruct Hin as [[]|(k & -> & Hk & _ & Hfirst)].
    destruct (named_column _ _ _ _ _ Hn Hk) as (kw & Hkw & Hname).
    exists k, kw. repeat split; try assumption.
    intros i' kw' Hlt Hkw' Hname'.
    destruct (named_keyword _ _ _ _ _ Hn Hkw') as (c & Hc & Hname'').
    cbn [Nat.add] in Hname''. unfold column_name in *.
    rewrite Hname' in Hname''. injection Hname'' as <-.
    now apply (Hfirst i').
  - intros i kw name Hkw Hname.
    destruct (named_keyword _ _ _ _ _ Hn Hkw) as (c & Hc & Hname').
    cbn [Nat.add] in Hname'. unfold column_name in *.
    rewrite Hname in Hname'. injection Hname' as <-.
    destruct (collect_kept cols 0 [] i name Hc) as [H|[[]|(k' & _ & H)]];
      apply (in_map fst) in H; exact H.
Qed.

(** C8. A column one of whose required qualifiers is void (a name equal
    to [":+:+:+:+"] or to eight spaces, a number below zero) is not in
    the plan. A column none of whose required qualifiers is void is in
    the plan under its own index, unless its qualified name is that of an
    earlier column of the plan. *)
Theorem columns_drop_void_columns
    (keywords names : list string) (pos : list Z) :
  columns keywords wgnames nums lgrs numlx numly numlz sep = Ok (names, pos) ->
  forall i kw,
    nth_error keywords i = Some kw ->
    (has_void_qualifier i kw = true -> ~ In (Z.of_nat i) pos)
    /\ (has_void_qualifier i kw = false ->
        exists name,
          column_name i kw = Ok (Some name) /\
          (In (name, Z.of_nat i) (combine names pos) \/
           exists j, (j < i)%nat /\ In (name, Z.of_nat j) (combine names pos))).
Proof.
  intros H i kw Hkw. unfold columns in H.
  apply (columns_loop_collect keywords 0 []) in H.
  destruct H as (cols & Hn & [= -> ->]).
  set (plan := collect cols 0 []).
  assert (Hcomb : combine (map fst plan) (map snd plan) = plan).
  { clearbody plan. induction plan as [|[a b] plan IH]; cbn; congruence. }
  rewrite Hcomb.
  destruct (named_keyword _ _ _ _ _ Hn Hkw) as (c & Hc & Hname).
  cbn [Nat.add] in Hname. fold column_name in Hname.
  pose proof (column_name_void _ _ _ Hname) as Hvoid.
  split; intros Hv; rewrite Hv in Hvoid.
  - destruct c; [discriminate|].
    intros Hin. apply in_map_iff in Hin. destruct Hin as ([name p] & Hp & Hin).
    cbn [snd] in Hp. subst p.
    apply collect_origin in Hin.
    destruct Hin as [[]|(k & Hik & Hk & _)].
    cbn [Nat.add] in Hik. apply Nat2Z.inj in Hik. subst k. congruence.
  - destruct c as [name|]; [|discriminate].
    exists name. split; [assumption|].
    destruct (collect_kept cols 0 [] i name Hc) as [Hin|[[]|(k' & Hlt & Hin)]].
    + now left.
    + right. now exists k'.
Qed.

End Lists.

End Plan.

Section PlanExamples.
Import Summary Core.
Local Open Scope string_scope.

(** On the keywords WOPR, WWPR, WOPR of one well. *)
Lemma columns_keep_first_occurrence_witness :
  NoDup ["WOPR    :W1      "; "WWPR    :W1      "]
  /\ List.length [0%Z; 1%Z] = List.length ["WOPR    :W1      "; "WWPR    :W1      "].
Proof.
  pose proof (columns_keep_first_occurrence
                ["W1      "; "W1      "; "W1      "] [0%Z; 0%Z; 0%Z] [] [] [] [] ":"
                ["WOPR    "; "WWPR    "; "WOPR    "]
                ["WOPR    :W1      "; "WWPR    :W1      "] [0%Z; 1%Z] eq_refl)
    as (Hnodup & Hlen & _).
  exact (conj Hnodup Hlen).
Defined.

(** On the keywords WWPR, WWPR, WOPR with a void second well name. *)
Lemma columns_drop_void_columns_witness :
  ~ In 1%Z [0%Z; 2%Z]
  /\ exists name,
       column_name ["W1      "; ":+:+:+:+"; "W1      "] [0%Z; 0%Z; 0%Z] [] [] [] [] ":"
                   2 "WOPR    " = Ok (Some name) /\
       (In (name, 2%Z)
           (combine ["WWPR    :W1      "; "WOPR    :W1      "] [0%Z; 2%Z]) \/
        exists j, (j < 2)%nat /\
          In (name, Z.of_nat j)
             (combine ["WWPR    :W1      "; "WOPR    :W1      "] [0%Z; 2%Z])).
Proof.
  pose proof (columns_drop_void_columns
                ["W1      "; ":+:+:+:+"; "W1      "] [0%Z; 0%Z; 0%Z] [] [] [] [] ":"
                ["WWPR    "; "WWPR    "; "WOPR    "]
                ["WWPR    :W1      "; "WOPR    :W1      "] [0%Z; 2%Z] eq_refl)
    as H.
  split.
  - exact (proj1 (H 1%nat "WWPR    " eq_refl) eq_refl).
  - exact (proj2 (H 2%nat "WOPR    " eq_refl) eq_refl).
Defined.

(** Against C8 as stated: the second of two WOPR columns of the well W1 has
    no void qualifier and is not in the plan. *)
Lemma duplicate_column_without_void_is_dropped :
  columns ["WOPR    "; "WOPR    "] ["W1      "; "W1      "] [0%Z; 0%Z]
          [] [] [] [] ":"
  = Ok (["WOPR    :W1      "], [0%Z])
  /\ has_void_qualifier ["W1      "; "W1      "] [0%Z; 0%Z] [] [] [] [] 1 "WOPR    "
     = false
  /\ ~ In 1%Z [0%Z].
Proof.
  repeat split. intros [H|[]]. discriminate.
Qed.

(** The copy of [columns] without the check keeps both. *)
Lemma earlier_columns_keep_duplicates :
  EarlierCore.columns ["WOPR    "; "WOPR    "] ["W1      "; "W1      "]
                      [0%Z; 0%Z] [] [] [] [] ":"
  = Ok (["WOPR    :W1      "; "WOPR    :W1      "], [0%Z; 1%Z]).
Proof. reflexivity. Qed.

End PlanExamples.

(** ** The matrix of a summary file *)

Section Matrix.
Import Io Core Fixture.

Lemma report_step_of_row (rest : list byte) :
  row_report_step (host_bytes32 1 ++ rest) = 1.
Proof. reflexivity. Qed.

(** What the loop of [readall] does with [report_step]: nothing. With the
    value 1 it starts from, every row carries 1. *)
Lemma readall_loop_report_step (fuel : nat) :
  forall stream rowsize pos buffer rows,
    Forall (fun row => row_report_step row = 1) buffer ->
    readall_loop fuel 1 stream rowsize pos buffer = Ok rows ->
    Forall (fun row => row_report_step row = 1) rows.
Proof.
  induction fuel as [|fuel IH]; intros st rowsize pos buffer rows Hb H;
    [discriminate|].
  cbn [readall_loop] in H.
  destruct (next st) as [st1|]; cbn [bind] in H; [|discriminate].
  destruct (empty (last st1)); [now injection H as <-|].
  destruct (end_report_step (last st1)).
  { destruct (next st1) as [st2|]; cbn [bind] in H; [|discriminate].
    destruct (empty (last st2)); [discriminate|].
    now apply IH in H. }
  destruct (expect "MINISTEP" _); cbn [bind] in H; [|discriminate].
  destruct (expect "INTE" _); cbn [bind] in H; [|discriminate].
  destruct (rowsize <? _); [discriminate|].
  destruct (defined (slice 0 4 _)) as [step|]; cbn [bind] in H; [|discriminate].
  destruct (next st1) as [st2|]; cbn [bind] in H; [|discriminate].
  destruct (empty (last st2)); [discriminate|].
  destruct (expect "PARAMS  " _); cbn [bind] in H; [|discriminate].
  destruct (write_items pos _) as [items|]; cbn [bind] in H; [|discriminate].
  cbv zeta in H. apply IH in H; [assumption|].
  apply Forall_app. split; [assumption|].
  constructor; [|constructor].
  rewrite <- app_assoc. apply report_step_of_row.
Qed.

Lemma readall_report_step_is_one (file : list byte) (alloc : Z -> Z)
    (rowsize : Z) (pos : list Z) (rows : list (list byte)) :
  readall file alloc rowsize pos = Ok rows ->
  Forall (fun row => row_report_step row = 1) rows.
Proof.
  unfold readall. intros H.
  destruct (rowsize <? 0); [discriminate|].
  destruct (next (open file)) as [st|]; cbn [bind] in H; [|discriminate].
  destruct (empty (last st)); [discriminate|].
  destruct (expect "SEQHDR  " _); cbn [bind] in H; [|discriminate].
  destruct (expect "INTE" _); cbn [bind] in H; [|discriminate].
  destruct (readall_loop _ _ _ _ _ _) as [buffer|] eqn:E; cbn [bind] in H;
    [|discriminate].
  destruct (negb (alloc _ =? _)); [discriminate|].
  injection H as <-.
  exact (readall_loop_report_step _ _ _ _ _ _ (Forall_nil _) E).
Qed.

(** The bound [readall] puts on its loop is never reached. *)
Lemma expect_never_out_of_fuel (expected : string) (str : list byte) :
  expect expected str <> Fail out_of_fuel.
Proof. unfold expect. destruct (_ || _); discriminate. Qed.

Lemma write_items_never_out_of_fuel (pos : list Z) (src : list byte) :
  write_items pos src <> Fail out_of_fuel.
Proof.
  induction pos as [|p pos IH]; cbn [write_items]; [discriminate|].
  destruct (p <? 0); [discriminate|].
  destruct (slice _ _ _); cbn [defined bind]; [|discriminate].
  destruct (write_items pos src); cbn [bind]; [discriminate | assumption].
Qed.

Lemma readall_loop_fuel (fuel : nat) :
  forall report_step st rowsize pos buffer,
    (List.length (stream st) < fuel)%nat ->
    readall_loop fuel report_step st rowsize pos buffer <> Fail out_of_fuel.
Proof.
  induction fuel as [|fuel IH]; intros report_step st rowsize pos buffer Hlen;
    [lia|].
  cbn [readall_loop].
  destruct (next st) as [st1|e] eqn:N1; cbn [bind].
  2:{ intros [= ->]. now apply next_never_out_of_fuel in N1. }
  pose proof (proj1 (next_length _ _ N1)) as L1.
  pose proof (next_clears_flag _ _ N1) as U1.
  destruct (empty (last st1)); [discriminate|].
  destruct (end_report_step (last st1)).
  { destruct (next st1) as [st2|e] eqn:N2; cbn [bind].
    2:{ intros [= ->]. now apply next_never_out_of_fuel in N2. }
    destruct (empty (last st2)) eqn:E2; [discriminate|].
    apply IH. pose proof (proj2 (next_length _ _ N2) U1 E2). cbn. lia. }
  destruct (expect "MINISTEP" _) as [[]|e] eqn:X1; cbn [bind].
  2:{ intros [= ->]. now apply expect_never_out_of_fuel in X1. }
  destruct (expect "INTE" _) as [[]|e] eqn:X2; cbn [bind].
  2:{ intros [= ->]. now apply expect_never_out_of_fuel in X2. }
  destruct (rowsize <? _); [discriminate|].
  destruct (slice 0 4 _); cbn [defined bind]; [|discriminate].
  destruct (next st1) as [st2|e] eqn:N2; cbn [bind].
  2:{ intros [= ->]. now apply next_never_out_of_fuel in N2. }
  destruct (empty (last st2)) eqn:E2; [discriminate|].
  destruct (expect "PARAMS  " _) as [[]|e] eqn:X3; cbn [bind].
  2:{ intros [= ->]. now apply expect_never_out_of_fuel in X3. }
  destruct (write_items pos _) as [items|e] eqn:W; cbn [bind].
  2:{ intros [= ->]. now apply write_items_never_out_of_fuel in W. }
  apply IH. pose proof (proj2 (next_length _ _ N2) U1 E2). lia.
Qed.

Lemma readall_never_out_of_fuel (file : list byte) (alloc : Z -> Z)
    (rowsize : Z) (pos : list Z) :
  readall file alloc rowsize pos <> Fail out_of_fuel.
Proof.
  unfold readall. destruct (rowsize <? 0); [discriminate|].
  destruct (next (open file)) as [st|e] eqn:N; cbn [bind].
  2:{ intros [= ->]. now apply next_never_out_of_fuel in N. }
  destruct (empty (last st)); [discriminate|].
  destruct (expect "SEQHDR  " _) as [[]|e] eqn:X1; cbn [bind].
  2:{ intros [= ->]. now apply expect_never_out_of_fuel in X1. }
  destruct (expect "INTE" _) as [[]|e] eqn:X2; cbn [bind].
  2:{ intros [= ->]. now apply expect_never_out_of_fuel in X2. }
  pose proof (proj1 (next_length _ _ N)) as L. cbn in L.
  pose proof (readall_loop_fuel (S (List.length file)) 1 st rowsize pos []) as F.
  destruct (readall_loop _ _ _ _ _ _) as [buffer|e]; cbn [bind].
  - destruct (negb _); discriminate.
  - intros [= ->]. apply F; [lia | reflexivity].
Qed.

(** C1. On a file of two report steps [readall] gives the rows in the
    order of their MINISTEP arrays, and gives both of them report step 1:
    the second row, which follows the second SEQHDR, does not carry 2. *)
Theorem readall_second_report_step_is_one :
  bind (readall two_report_steps (fun rows => 16 * rows) 16 [0; 2])
       (fun rows =>
          Ok (map (fun row => (row_report_step row, row_ministep row)) rows))
  = Ok [(1, 0); (1, 1)].
Proof. vm_compute. reflexivity. Qed.

End Matrix.

(** * Further properties *)

(** ** Bytes as numbers *)

Section Words.
Import Keyword Names Fixture.

Lemma Z_of_byte_range (b : byte) : 0 <= Z_of_byte b < 256.
Proof.
  unfold Z_of_byte. pose proof (N_ascii_bounded b). lia.
Qed.

Lemma byte_of_Z_of_byte (b : byte) : ascii_of_N (Z.to_N (Z_of_byte b)) = b.
Proof. unfold Z_of_byte. now rewrite N2Z.id, ascii_N_embedding. Qed.

Lemma lor_shiftl_8 (x y : Z) :
  0 <= y < 256 -> Z.lor (Z.shiftl x 8) y = x * 256 + y.
Proof.
  intros Hy.
  assert (Hland : Z.land (Z.shiftl x 8) y = 0).
  { apply Z.bits_inj'. intros n Hn.
    rewrite Z.land_spec, Z.bits_0.
    destruct (Z.lt_ge_cases n 8) as [Hlt|Hge].
    - now rewrite Z.shiftl_spec_low.
    - rewrite <- (Z.mod_small y (2 ^ 8)) by (change (2 ^ 8) with 256; lia).
      rewrite Z.mod_pow2_bits_high by lia. apply andb_false_r. }
  pose proof (Z.add_lor_land (Z.shiftl x 8) y) as H.
  rewrite Hland in H. rewrite Z.shiftl_mul_pow2 in * by lia.
  change (2 ^ 8) with 256 in *. lia.
Qed.

(** Four bytes, most significant first, as a number. *)
Lemma be_uint_4 (a b c d : byte) :
  be_uint [a; b; c; d]
  = Z_of_byte a * 16777216 + Z_of_byte b * 65536 + Z_of_byte c * 256
    + Z_of_byte d.
Proof.
  unfold be_uint. cbn [fold_left].
  rewrite !lor_shiftl_8 by apply Z_of_byte_range.
  lia.
Qed.

Lemma be_uint_4_range (a b c d : byte) : 0 <= be_uint [a; b; c; d] < 2 ^ 32.
Proof.
  rewrite be_uint_4.
  pose proof (Z_of_byte_range a). pose proof (Z_of_byte_range b).
  pose proof (Z_of_byte_range c). pose proof (Z_of_byte_range d).
  change (2 ^ 32) with 4294967296. lia.
Qed.

(** The four bytes of a word are the bytes the word was read from. *)
Lemma be_bytes32_be_uint (a b c d : byte) :
  be_bytes32 (be_uint [a; b; c; d]) = [a; b; c; d].
Proof.
  pose proof (Z_of_byte_range a) as Ha. pose proof (Z_of_byte_range b) as Hb.
  pose proof (Z_of_byte_range c) as Hc. pose proof (Z_of_byte_range d) as Hd.
  unfold be_bytes32, host_bytes32. cbv zeta.
  rewrite Z.mod_small by apply be_uint_4_range.
  rewrite be_uint_4. cbn [map rev app].
  change 255 with (Z.ones 8).
  rewrite !Z.land_ones, !Z.shiftr_div_pow2 by lia.
  change (8 * 0) with 0. change (8 * 1) with 8.
  change (8 * 2) with 16. change (8 * 3) with 24.
  change (2 ^ 0) with 1. change (2 ^ 8) with 256.
  change (2 ^ 16) with 65536. change (2 ^ 24) with 16777216.
  set (w := Z_of_byte a * 16777216 + Z_of_byte b * 65536 + Z_of_byte c * 256
            + Z_of_byte d).
  replace ((w / 16777216) mod 256) with (Z_of_byte a)
    by (subst w; Z.div_mod_to_equations; lia).
  replace ((w / 65536) mod 256) with (Z_of_byte b)
    by (subst w; Z.div_mod_to_equations; lia).
  replace ((w / 256) mod 256) with (Z_of_byte c)
    by (subst w; Z.div_mod_to_equations; lia).
  replace ((w / 1) mod 256) with (Z_of_byte d)
    by (subst w; Z.div_mod_to_equations; lia).
  now rewrite !byte_of_Z_of_byte.
Qed.

End Words.
